(** * Bootstrap DNS and conditional upstream routing of blocky

    A shallow embedding of [resolver/bootstrap.go] and of the
    conditional upstream resolver that follows it in the same source
    unit.  Go pointers to objects that are compared by identity
    (resolvers) are modelled as addresses; everything the code reaches
    outside of this unit (the network, the other resolvers of a chain,
    the [net], [dns], [util] and [config] packages) is gathered in the
    class [Externals] and the calls made to it are recorded in a trace. *)

From Stdlib Require Import ZArith Lia.
From stdpp Require Import base option list strings gmap fin_maps.
From Equations Require Import Equations.

Local Open Scope Z_scope.

(** ** Go run-time outcomes *)

(** A Go call either returns or panics. *)
Inductive panic : Type :=
| IndexOutOfRange
| NilDereference
| DivideByZero
| IntnInvalidArgument.

Inductive outcome (A : Type) : Type :=
| Returns (a : A)
| Panics (p : panic).
Arguments Returns {A} a.
Arguments Panics {A} p.

(** ** Machine integers *)

Definition uint32 (z : Z) : Z := z mod 2 ^ 32.

(** ** IPSet *)

(** [net.IP] is a byte slice. *)
Definition IP : Type := list Z.

Record IPSet : Type := mkIPSet {
  values : list IP;
  index : Z  (* uint32 *)
}.

Definition newIPSet (ips : list IP) : IPSet :=
  {| values := ips; index := 0 |}.

Definition len {A} (l : list A) : Z := Z.of_nat (length l).

(** [ips.values[idx]]: indexing a slice panics out of range. *)
Definition slice_index {A} (l : list A) (i : Z) : outcome A :=
  if (i <? 0) || (len l <=? i) then Panics IndexOutOfRange
  else match l !! Z.to_nat i with
       | Some a => Returns a
       | None => Panics IndexOutOfRange
       end.

Definition Current (ips : IPSet) : outcome IP :=
  let idx := index ips in
  slice_index (values ips) idx.

(** [atomic.CompareAndSwapUint32(&ips.index, old, new)]. *)
Definition CompareAndSwapUint32 (ips : IPSet) (old new : Z) : IPSet * bool :=
  if index ips =? old
  then ({| values := values ips; index := new |}, true)
  else (ips, false).

(** One uninterrupted call of [Next]. [int] is 64 bits wide, so the
    conversion of a [uint32] to [int] keeps its value; [%] on [int]
    truncates and panics on a zero divisor. *)
Definition Next (ips : IPSet) : outcome IPSet :=
  let oldIP := index ips in
  if len (values ips) =? 0 then Panics DivideByZero
  else
    let newIP := uint32 (Z.rem (uint32 (index ips + 1)) (len (values ips))) in
    Returns (fst (CompareAndSwapUint32 ips oldIP newIP)).

Fixpoint Next_times (n : nat) (ips : IPSet) : outcome IPSet :=
  match n with
  | O => Returns ips
  | S n' => match Next ips with
            | Returns ips' => Next_times n' ips'
            | Panics p => Panics p
            end
  end.

(** *** Interleaved calls of [Next]

    [Next] reads [ips.index] twice without synchronisation and then
    tries one compare-and-swap.  A goroutine inside [Next] is at one of
    three program points. *)
Inductive next_pc : Type :=
| AtLoadOld                    (* before [oldIP := ips.index] *)
| AtLoadNew (oldIP : Z)        (* before [newIP := ...ips.index...] *)
| AtCAS (oldIP newIP : Z)      (* before the compare-and-swap *)
| NextDone.

Inductive next_step (vals : list IP) : Z * next_pc -> Z * next_pc -> Prop :=
| step_load_old idx :
    next_step vals (idx, AtLoadOld) (idx, AtLoadNew idx)
| step_load_new idx old :
    len vals <> 0 ->
    next_step vals (idx, AtLoadNew old)
              (idx, AtCAS old (uint32 (Z.rem (uint32 (idx + 1)) (len vals))))
| step_cas idx old new :
    next_step vals (idx, AtCAS old new)
              (if idx =? old then new else idx, NextDone).

(** A pool of goroutines, each calling [Next] over and over, sharing one
    cursor. *)
Inductive pool_step (vals : list IP) : Z * list next_pc -> Z * list next_pc -> Prop :=
| pool_thread idx idx' pre pc pc' post :
    next_step vals (idx, pc) (idx', pc') ->
    pool_step vals (idx, pre ++ pc :: post) (idx', pre ++ pc' :: post)
| pool_call_again idx pre post :
    pool_step vals (idx, pre ++ NextDone :: post) (idx, pre ++ AtLoadOld :: post).

Inductive pool_steps (vals : list IP) : Z * list next_pc -> Z * list next_pc -> Prop :=
| pool_refl s : pool_steps vals s s
| pool_more s1 s2 s3 :
    pool_step vals s1 s2 -> pool_steps vals s2 s3 -> pool_steps vals s1 s3.

Definition pc_ok (vals : list IP) (pc : next_pc) : Prop :=
  match pc with
  | AtCAS _ new => 0 <= new < len vals
  | _ => True
  end.

(** ** Go strings

    A Go string is a sequence of bytes, as is a Rocq [string]. *)

(** The byte of the label separator ["."]. *)
Definition dot : Ascii.ascii := Ascii.Ascii false true true true false true false false.

Fixpoint strings_HasPrefix (s prefix : string) {struct prefix} : bool :=
  match prefix, s with
  | EmptyString, _ => true
  | String p prefix', String c s' =>
      if Ascii.eqb p c then strings_HasPrefix s' prefix' else false
  | String _ _, EmptyString => false
  end.

Fixpoint Index_from (i : Z) (s substr : string) : Z :=
  if strings_HasPrefix s substr then i
  else match s with
       | EmptyString => -1
       | String _ s' => Index_from (i + 1) s' substr
       end.

(** [strings.Index]: the byte offset of the first occurrence, or -1. *)
Definition strings_Index (s substr : string) : Z := Index_from 0 s substr.

Definition strings_Contains (s substr : string) : bool :=
  0 <=? strings_Index s substr.

(** [strings.HasSuffix]: some tail of [s] is [suffix]. *)
Fixpoint strings_HasSuffix (s suffix : string) : bool :=
  if String.eqb s suffix then true
  else match s with
       | EmptyString => false
       | String _ s' => strings_HasSuffix s' suffix
       end.

(** The slice expression [s[n:]] for [0 <= n <= len(s)]. *)
Fixpoint string_from (n : nat) (s : string) : string :=
  match n, s with
  | O, _ => s
  | S n', String _ s' => string_from n' s'
  | S _, EmptyString => EmptyString
  end.

(** ** DNS messages, requests and responses *)

(** [dns.Type] is a [uint16]. *)
Definition dns_TypeA : Z := 1.
Definition dns_TypeAAAA : Z := 28.
Definition dns_RcodeSuccess : Z := 0.

Definition v4v6QTypes : list Z := [dns_TypeA; dns_TypeAAAA].

Record Question : Type := mkQuestion {
  Name : string;
  Qtype : Z;
  Qclass : Z
}.

(** A resource record of an answer section, by its dynamic type; the
    record header plays no part here. *)
Inductive RR : Type :=
| RR_A (A : IP)          (* *dns.A *)
| RR_AAAA (AAAA : IP)    (* *dns.AAAA *)
| RR_other (rrtype : Z). (* any other record *)

Record Msg : Type := mkMsg {
  Rcode : Z;
  MsgQuestion : list Question;
  Answer : list RR
}.

(** [model.Request]; the logger it carries is left out. *)
Record Request : Type := mkRequest {
  Req : Msg
}.

(** Modelled from the spec: [model.ResponseType] is declared outside
    the sources at hand; it is the enum tag that says which pipeline
    stage produced a response. *)
Inductive ResponseType : Type :=
| ResponseTypeRESOLVED
| ResponseTypeCACHED
| ResponseTypeBLOCKED
| ResponseTypeCONDITIONAL
| ResponseTypeCUSTOMDNS.

(** [model.Response]; [Res] is a pointer and can be nil. *)
Record Response : Type := mkResponse {
  Res : option Msg;
  Reason : string;
  RType : ResponseType
}.

(** A [Resolver] interface value holds a pointer and is compared by
    identity: it is modelled by the address of the object. *)
Definition Resolver : Type := positive.

(** ** Configuration *)

(** Modelled from the spec: [config.NetProtocol] is declared outside the
    sources at hand; it tells the raw transport, which needs a literal
    address, from the other transports. *)
Inductive NetProtocol : Type :=
| NetProtocolTcpUdp
| NetProtocolTcpTls
| NetProtocolHttps.

Definition NetProtocol_eqb (a b : NetProtocol) : bool :=
  match a, b with
  | NetProtocolTcpUdp, NetProtocolTcpUdp
  | NetProtocolTcpTls, NetProtocolTcpTls
  | NetProtocolHttps, NetProtocolHttps => true
  | _, _ => false
  end.

(** Modelled from the spec: [config.Upstream], the upstream descriptor,
    carries a protocol tag, a host and port and path parameters. *)
Record Upstream : Type := mkUpstream {
  Net : NetProtocol;
  Host : string;
  Port : Z;
  Path : string
}.

(** Modelled from the spec: one entry of [config.BootstrapDNSConfig], an
    upstream with its hardcoded addresses. *)
Record BootstrappedUpstreamConfig : Type := mkBootstrappedUpstreamConfig {
  BUpstream : Upstream;
  IPs : list IP
}.

(** Modelled from the spec: [config.IPVersion], v4-only, v6-only or
    dual. *)
Inductive IPVersion : Type :=
| IPVersionDual
| IPVersionV4
| IPVersionV6.

Definition IPVersion_eqb (a b : IPVersion) : bool :=
  match a, b with
  | IPVersionDual, IPVersionDual
  | IPVersionV4, IPVersionV4
  | IPVersionV6, IPVersionV6 => true
  | _, _ => false
  end.

(** The fields of [config.Config] that are read here; the filtering and
    caching sections are only handed on to the constructors of those
    resolvers. *)
Record Config : Type := mkConfig {
  BootstrapDNS : list BootstrappedUpstreamConfig;
  UpstreamTimeout : Z;  (* a duration, zero for none *)
  ConnectIPVersion : IPVersion
}.

(** ** Errors *)

#[warnings="-register-all"]
Inductive error : Type :=
| ErrExternal (msg : string)
    (* an error made outside this unit *)
| ErrNoSuchHost (hostname : string)
    (* "no such host %s" *)
| ErrUpstreamNotConfigured (i : Z) (ips : list IP)
    (* "item %d: upstream not configured (ips=%v)" *)
| ErrMustUseIP (i : Z) (upstream : Upstream) (net : NetProtocol)
    (* "item %d: '%s': protocol %s must use IP instead of hostname" *)
| ErrRequiresIPs (i : Z) (upstream : Upstream) (net : NetProtocol)
    (* "item %d: '%s': protocol %s requires IPs to be set" *)
| ErrInvalidBootstrapDns (wrapped : error)
    (* "invalid bootstrapDns configuration: %w" *)
| ErrCreateParallelBest (wrapped : error)
    (* "could not create bootstrap ParallelBestResolver: %w" *)
| MultiError (errs : list error).
    (* *multierror.Error *)

(** The errors held by an error value when it is flattened by
    [multierror.Append]. *)
Definition multierror_flatten (e : error) : list error :=
  match e with
  | MultiError es => es
  | _ => [e]
  end.

(** [multierror.Append(err, e)] for a non-nil [e]: the errors of [err]
    (none when it is nil, its own list when it is a multi-error, itself
    otherwise) followed by those of [e].  The result is the [Errors]
    field of the [*multierror.Error] returned. *)
Definition multierror_Append (err : option error) (e : error) : list error :=
  match err with
  | None => []
  | Some err' => multierror_flatten err'
  end ++ multierror_flatten e.

(** ** The world outside *)

(** What a call of [Resolve] leaves behind: the request, which the
    callee receives by pointer and may change, and the two results. *)
Definition resolution : Type := Request * (option Response * option error).

Class Externals : Type := {
  (** the state of what lies outside: network, caches, other resolvers *)
  World : Type;
  (** [net.ParseIP], [None] for nil *)
  net_ParseIP : string -> option IP;
  (** [dns.Fqdn] *)
  dns_Fqdn : string -> string;
  (** [util.ExtractDomain] *)
  util_ExtractDomain : Question -> string;
  (** [util.NewMsgWithQuestion] *)
  util_NewMsgWithQuestion : string -> Z -> Msg;
  (** [Upstream.IsDefault] *)
  Upstream_IsDefault : Upstream -> bool;
  (** [IPVersion.Net] and [IPVersion.QTypes] *)
  IPVersion_Net : IPVersion -> string;
  IPVersion_QTypes : IPVersion -> list Z;
  (** [net.SplitHostPort], [net.JoinHostPort], [net.IP.String] *)
  net_SplitHostPort : string -> (string * string) + error;
  net_JoinHostPort : string -> string -> string;
  IP_String : IP -> string;
  (** [config.GetConfig] *)
  config_GetConfig : World -> Config;
  (** the method [Resolve] of the resolver at an address *)
  Resolver_Resolve : Resolver -> Request -> World -> outcome resolution * World;
  (** [b.systemResolver.LookupIP] under an optional timeout *)
  systemResolver_LookupIP :
    option Z -> string -> string -> World -> (list IP * option error) * World;
  (** [newUpstreamResolverUnchecked], which allocates a resolver *)
  newUpstreamResolverUnchecked : Upstream -> World -> Resolver * World;
  (** [newParallelBestResolver] over the single default group *)
  newParallelBestResolver : list Resolver -> World -> (error + Resolver) * World;
  (** [Chain(NewFilteringResolver(..), NewCachingResolver(..), r)] *)
  Chain_filtering_caching : Config -> Resolver -> World -> Resolver * World;
  (** [rand.Intn] *)
  rand_Intn : Z -> World -> Z * World;
  (** [dialer.DialContext], which yields a connection handle *)
  Dialer_DialContext : string -> string -> World -> (option Z * option error) * World
}.

(** The calls that leave this unit, in the order they are made. *)
Inductive event : Type :=
| EvResolve (r : Resolver) (req : Request)
| EvLookupIP (timeout : option Z) (network host : string)
| EvNewUpstreamResolver (upstream : Upstream)
| EvNewParallelBest (group : list Resolver)
| EvChain (parallel : Resolver)
| EvRandIntn (n : Z)
| EvDial (network addr : string).

Section Model.
Context {E : Externals}.

Record State : Type := mkState {
  world : World;
  trace : list event
}.

(** Computations that may call out and may panic. *)
Definition M (A : Type) : Type := State -> outcome A * State.

Definition ret {A} (a : A) : M A := fun st => (Returns a, st).

Definition bind {A B} (m : M A) (k : A -> M B) : M B :=
  fun st => match m st with
            | (Returns a, st') => k a st'
            | (Panics p, st') => (Panics p, st')
            end.

Definition raise {A} (p : panic) : M A := fun st => (Panics p, st).

(** An external call: it is logged, then it acts on the world. *)
Definition extern {A} (ev : event) (f : World -> A * World) : M A :=
  fun st => let '(a, w) := f (world st) in
            (Returns a, {| world := w; trace := trace st ++ [ev] |}).

Definition extern_outcome {A} (ev : event) (f : World -> outcome A * World) : M A :=
  fun st => let '(a, w) := f (world st) in
            (a, {| world := w; trace := trace st ++ [ev] |}).

End Model.

#[global] Instance M_ret `{Externals} : MRet M := @ret _.
#[global] Instance M_bind `{Externals} : MBind M := fun A B k m => bind m k.

(** ** Bootstrap *)

Section BootstrapModel.
Context {E : Externals}.

(** [resolver] is nil until bootstrap DNS is configured; the logger and
    the system resolver, which belongs to the world outside, are left
    out.  [bootstraped] is the map [bootstrapedResolvers], keyed by
    resolver identity; a nil map reads as the empty one. *)
Record Bootstrap : Type := mkBootstrap {
  resolver : option Resolver;
  bootstraped : gmap Resolver (list IP)
}.

(** A [*UpstreamResolver]: its address and the field read here. *)
Record UpstreamResolver : Type := mkUpstreamResolver {
  self : Resolver;
  upstream : Upstream
}.

Definition lift {A} (o : outcome A) : M A := fun st => (o, st).

Definition GetConfig : M Config :=
  fun st => (Returns (config_GetConfig (world st)), st).

Definition call_Resolve (r : Resolver) (req : Request) : M resolution :=
  extern_outcome (EvResolve r req) (Resolver_Resolve r req).

(** The loop of [resolveType] over the answer section. *)
Definition collect_address (ips : list IP) (a : RR) : list IP :=
  match a with
  | RR_A ip => ips ++ [ip]
  | RR_AAAA ip => ips ++ [ip]
  | RR_other _ => ips
  end.

Definition resolveType (b : Bootstrap) (hostname : string) (qType : Z)
  : M (list IP * option error) :=
  match net_ParseIP hostname with
  | Some ip => mret ([ip], None)
  | None =>
      let req := {| Req := util_NewMsgWithQuestion hostname qType |} in
      match resolver b with
      | None => raise NilDereference
      | Some chain =>
          '(_, (rsp, err)) ← call_Resolve chain req;
          match err with
          | Some e => mret ([], Some e)
          | None =>
              match rsp with
              | None => raise NilDereference
              | Some rsp =>
                  match Res rsp with
                  | None => raise NilDereference
                  | Some res =>
                      if negb (Rcode res =? dns_RcodeSuccess) then mret ([], None)
                      else mret (fold_left collect_address (Answer res) [], None)
                  end
              end
          end
      end
  end.

(** The loop of [resolve], with the two named results as accumulators. *)
Fixpoint resolve_loop (b : Bootstrap) (hostname : string) (qTypes : list Z)
    (ips : list IP) (err : option error) : M (list IP * option error) :=
  match qTypes with
  | [] => mret (ips, err)
  | qType :: qTypes' =>
      '(qIPs, qErr) ← resolveType b hostname qType;
      match qErr with
      | Some e =>
          resolve_loop b hostname qTypes' ips
                       (Some (MultiError (multierror_Append err e)))
      | None => resolve_loop b hostname qTypes' (ips ++ qIPs) err
      end
  end.

Definition resolve (b : Bootstrap) (hostname : string) (qTypes : list Z)
  : M (list IP * option error) :=
  '(ips, err) ← resolve_loop b hostname qTypes [] None;
  match err with
  | None =>
      if len ips =? 0 then mret ([], Some (ErrNoSuchHost hostname))
      else mret (ips, err)
  | Some _ => mret (ips, err)
  end.

Definition resolveUpstream (b : Bootstrap) (r : Resolver) (host : string)
  : M (list IP * option error) :=
  match resolver b with
  | None =>
      cfg ← GetConfig;
      let timeout := UpstreamTimeout cfg in
      let deadline := if negb (timeout =? 0) then Some timeout else None in
      let network := IPVersion_Net (ConnectIPVersion cfg) in
      extern (EvLookupIP deadline network host)
             (systemResolver_LookupIP deadline network host)
  | Some _ =>
      match bootstraped b !! r with
      | Some ips => mret (ips, None)
      | None => resolve b host v4v6QTypes
      end
  end.

Definition UpstreamIPs (b : Bootstrap) (r : UpstreamResolver)
  : M (option IPSet * option error) :=
  let hostname := Host (upstream r) in
  match net_ParseIP hostname with
  | Some ip => mret (Some (newIPSet [ip]), None)
  | None =>
      '(ips, err) ← resolveUpstream b (self r) hostname;
      match err with
      | Some e => mret (None, Some e)
      | None => mret (Some (newIPSet ips), None)
      end
  end.

(** The dial hook installed by [NewHTTPTransport]. *)
Definition dialContext (b : Bootstrap) (network addr : string)
  : M (option Z * option error) :=
  match net_SplitHostPort addr with
  | inr err => mret (None, Some err)
  | inl (host, port) =>
      cfg ← GetConfig;
      let connectIPVersion := ConnectIPVersion cfg in
      let qTypes :=
        if negb (IPVersion_eqb connectIPVersion IPVersionDual)
        then IPVersion_QTypes connectIPVersion
        else if strings_HasSuffix network "4" then [dns_TypeA]
        else if strings_HasSuffix network "6" then [dns_TypeAAAA]
        else v4v6QTypes in
      '(ips, err) ← resolve b host qTypes;
      match err with
      | Some e => mret (None, Some e)
      | None =>
          if len ips <=? 0 then raise IntnInvalidArgument
          else
            n ← extern (EvRandIntn (len ips)) (rand_Intn (len ips));
            ip ← lift (slice_index ips n);
            let addrWithIP := net_JoinHostPort (IP_String ip) port in
            extern (EvDial network addrWithIP)
                   (Dialer_DialContext network addrWithIP)
      end
  end.

(** [http.Transport], of which only the dial hook is set here. *)
Record Transport : Type := mkTransport {
  DialContext : option (string -> string -> M (option Z * option error))
}.

Definition NewHTTPTransport (b : Bootstrap) : Transport :=
  match resolver b with
  | None => {| DialContext := None |}
  | Some _ => {| DialContext := Some (dialContext b) |}
  end.

(** The loop of [newBootstrapedResolvers]; [i] is the loop index and
    [i + 1] the index shown to the user.  [multiErr] holds the errors of
    the [*multierror.Error], [None] while the pointer is nil. *)
Fixpoint newBootstrapedResolvers_loop (i : Z) (cfg : list BootstrappedUpstreamConfig)
    (upstreamIPs : gmap Resolver (list IP)) (multiErr : option (list error))
  : M (gmap Resolver (list IP) * option (list error)) :=
  match cfg with
  | [] => mret (upstreamIPs, multiErr)
  | upstreamCfg :: cfg' =>
      let i1 := i + 1 in
      let upstream := BUpstream upstreamCfg in
      if Upstream_IsDefault upstream then
        newBootstrapedResolvers_loop (i + 1) cfg' upstreamIPs
          (Some (multierror_Append (MultiError <$> multiErr)
                   (ErrUpstreamNotConfigured i1 (IPs upstreamCfg))))
      else if NetProtocol_eqb (Net upstream) NetProtocolTcpUdp then
        match net_ParseIP (Host upstream) with
        | None =>
            newBootstrapedResolvers_loop (i + 1) cfg' upstreamIPs
              (Some (multierror_Append (MultiError <$> multiErr)
                       (ErrMustUseIP i1 upstream (Net upstream))))
        | Some ip =>
            let ips := [] ++ [ip] in
            resolver ← extern (EvNewUpstreamResolver upstream)
                              (newUpstreamResolverUnchecked upstream);
            newBootstrapedResolvers_loop (i + 1) cfg'
              (<[resolver := ips]> upstreamIPs) multiErr
        end
      else
        let ips := IPs upstreamCfg in
        if len ips =? 0 then
          newBootstrapedResolvers_loop (i + 1) cfg' upstreamIPs
            (Some (multierror_Append (MultiError <$> multiErr)
                     (ErrRequiresIPs i1 upstream (Net upstream))))
        else
          resolver ← extern (EvNewUpstreamResolver upstream)
                            (newUpstreamResolverUnchecked upstream);
          newBootstrapedResolvers_loop (i + 1) cfg'
            (<[resolver := ips]> upstreamIPs) multiErr
  end.

Definition newBootstrapedResolvers (cfg : list BootstrappedUpstreamConfig)
  : M (gmap Resolver (list IP) * option error) :=
  '(upstreamIPs, multiErr) ← newBootstrapedResolvers_loop 0 cfg ∅ None;
  match multiErr with
  | Some errs => mret (∅, Some (ErrInvalidBootstrapDns (MultiError errs)))
  | None => mret (upstreamIPs, None)
  end.

(** The resolvers of the single default group.  Go ranges over a map in
    an unspecified order; nothing below depends on the order. *)
Definition ResolverGroups (br : gmap Resolver (list IP)) : list Resolver :=
  (map_to_list br).*1.

Definition NewBootstrap (cfg : Config) : M (option Bootstrap * option error) :=
  let b := {| resolver := None; bootstraped := ∅ |} in
  '(bootstraped, err) ← newBootstrapedResolvers (BootstrapDNS cfg);
  match err with
  | Some e => mret (None, Some e)
  | None =>
      if Z.of_nat (size bootstraped) =? 0 then mret (Some b, None)
      else
        made ← extern (EvNewParallelBest (ResolverGroups bootstraped))
                      (newParallelBestResolver (ResolverGroups bootstraped));
        match made with
        | inl e => mret (None, Some (ErrCreateParallelBest e))
        | inr parallelResolver =>
            chain ← extern (EvChain parallelResolver)
                           (Chain_filtering_caching cfg parallelResolver);
            mret (Some {| resolver := Some chain; bootstraped := bootstraped |},
                  None)
        end
  end.

End BootstrapModel.

(** ** ConditionalUpstreamResolver *)

(** [domain[i+1:]] for the first separator at [i], if there is one. *)
Definition strip_label (domain : string) : option string :=
  let i := strings_Index domain "." in
  if 0 <=? i then Some (string_from (Z.to_nat (i + 1)) domain) else None.

Lemma string_from_length (n : nat) (s : string) :
  String.length (string_from n s) = (String.length s - n)%nat.
Proof.
  revert s. induction n as [|n IH]; intros [|c s]; simpl; try lia.
  rewrite IH. lia.
Qed.

Lemma Index_from_sep_lt (s : string) (i : Z) :
  0 <= i -> 0 <= Index_from i s "." ->
  Index_from i s "." < i + Z.of_nat (String.length s).
Proof.
  revert i. induction s as [|c s IH]; intros i Hi; simpl.
  - lia.
  - match goal with |- context [if ?b then _ else _] => destruct b end.
    + lia.
    + intros H. specialize (IH (i + 1)). lia.
Qed.

Lemma strip_label_shorter (domain domain' : string) :
  strip_label domain = Some domain' ->
  (String.length domain' < String.length domain)%nat.
Proof.
  unfold strip_label, strings_Index.
  destruct (Z.leb_spec 0 (Index_from 0 domain ".")) as [H|H]; [|done].
  intros [= <-]. rewrite string_from_length.
  pose proof (Index_from_sep_lt domain 0 ltac:(lia) H). lia.
Qed.

(** A value paired with the proof that it is what was examined. *)
Definition inspect {A} (a : A) : {b : A | a = b} := exist _ a eq_refl.

Section ConditionalModel.
Context {E : Externals}.

(** The resolver's mapping from lower-cased domain to sub-pipeline and
    the next link of its chain. *)
Record ConditionalUpstreamResolver : Type := mkConditionalUpstreamResolver {
  mapping : gmap string Resolver;
  next : Resolver
}.

(** [m.Question[0]], which panics on an empty question section. *)
Definition Question0 (m : Msg) : outcome Question :=
  match MsgQuestion m with
  | [] => Panics IndexOutOfRange
  | q :: _ => Returns q
  end.

(** [m.Question[0].Name = name] *)
Definition set_Question0_Name (name : string) (m : Msg) : outcome Msg :=
  match MsgQuestion m with
  | [] => Panics IndexOutOfRange
  | q :: qs =>
      Returns {| Rcode := Rcode m;
                 MsgQuestion :=
                   {| Name := name; Qtype := Qtype q; Qclass := Qclass q |} :: qs;
                 Answer := Answer m |}
  end.

(** The request is passed by pointer: its final content is returned
    along with the results.  [do] only goes to the log. *)
Definition internalResolve (reso : Resolver) (doFQ do : string) (req : Request)
  : M resolution :=
  msg ← lift (set_Question0_Name (dns_Fqdn doFQ) (Req req));
  let req := {| Req := msg |} in
  '(req, (response, err)) ← call_Resolve reso req;
  response ←
    match err with
    | None =>
        match response with
        | None => raise NilDereference
        | Some response =>
            let response := {| Res := Res response;
                               Reason := "CONDITIONAL";
                               RType := ResponseTypeCONDITIONAL |} in
            match Res response with
            | None => raise NilDereference
            | Some res =>
                if 0 <? len (MsgQuestion res) then
                  q ← lift (Question0 (Req req));
                  res ← lift (set_Question0_Name (Name q) res);
                  mret (Some {| Res := Some res;
                                Reason := Reason response;
                                RType := RType response |})
                else mret (Some response)
            end
        end
    | Some _ => mret response
    end;
  (* answer = util.AnswerToString(response.Res.Answer), for the log *)
  match response with
  | Some rsp =>
      match Res rsp with
      | None => raise NilDereference
      | Some _ => mret (req, (response, err))
      end
  | None => mret (req, (response, err))
  end.

(** What [processRequest] returns, with the request as it is left. *)
Definition processed : Type := Request * (bool * (option Response * option error)).

Equations processRequest_loop (r : ConditionalUpstreamResolver)
    (domainFromQuestion domain : string) (request : Request)
  : M processed by wf (String.length domain) lt :=
  processRequest_loop r domainFromQuestion domain request
    with inspect (0 <? Z.of_nat (String.length domain)) := {
    | exist _ false _ => mret (request, (false, (None, None)));
    | exist _ true _ with mapping r !! domain := {
      | Some resolver =>
          '(request, result) ←
            internalResolve resolver domainFromQuestion domain request;
          mret (request, (true, result));
      | None with inspect (strip_label domain) := {
        | exist _ (Some domain') Hstrip =>
            processRequest_loop r domainFromQuestion domain' request;
        | exist _ None _ => mret (request, (false, (None, None))) } } }.
Next Obligation. by apply strip_label_shorter. Qed.

Definition processRequest (r : ConditionalUpstreamResolver) (request : Request)
  : M processed :=
  q ← lift (Question0 (Req request));
  let domainFromQuestion := util_ExtractDomain q in
  let domain := domainFromQuestion in
  if strings_Contains domainFromQuestion "." then
    processRequest_loop r domainFromQuestion domain request
  else
    match mapping r !! "." with
    | Some resolver =>
        '(request, result) ←
          internalResolve resolver domainFromQuestion domain request;
        mret (request, (true, result))
    | None => mret (request, (false, (None, None)))
    end.

Definition Resolve (r : ConditionalUpstreamResolver) (request : Request)
  : M resolution :=
  if 0 <? Z.of_nat (size (mapping r)) then
    '(request', (resolved, result)) ← processRequest r request;
    match resolved with
    | true => mret (request', result)
    | false => call_Resolve (next r) request'
    end
  else call_Resolve (next r) request.

End ConditionalModel.

(** ** What the properties are stated with

    The definitions of this part are not taken from the code: they say
    in words of their own what the code is expected to compute, and the
    properties below compare the two. *)

(** The address records of an answer section, in order. *)
Definition address_of (a : RR) : option IP :=
  match a with
  | RR_A ip => Some ip
  | RR_AAAA ip => Some ip
  | RR_other _ => None
  end.

Definition address_records (answer : list RR) : list IP := omap address_of answer.

Definition result_addresses (r : list IP * option error) : list IP :=
  match r.2 with
  | None => r.1
  | Some _ => []
  end.

(** The addresses of the record types that were resolved without error
    and the errors of the others, both in query order. *)
Definition addresses_of (results : list (list IP * option error)) : list IP :=
  concat (result_addresses <$> results).

Definition errors_of (results : list (list IP * option error)) : list error :=
  omap snd results.

(** The accumulated error after further errors have been appended. *)
Definition appended (err : option error) (errs : list error) : option error :=
  match errs with
  | [] => err
  | _ => Some (MultiError (match err with
                           | None => []
                           | Some e => multierror_flatten e
                           end ++ concat (multierror_flatten <$> errs)))
  end.

(** The errors of the loop so far, followed by new ones. *)
Definition recorded (multiErr : option (list error)) (errs : list error)
  : option (list error) :=
  match errs with
  | [] => multiErr
  | _ => Some (default [] multiErr ++ errs)
  end.

(** The tails of [s] that follow one of its separators, longest first;
    the empty tail is no domain. *)
Fixpoint tails_after_dots (s : string) : list string :=
  match s with
  | EmptyString => []
  | String c s' =>
      (if Ascii.eqb c dot then
         match s' with
         | EmptyString => []
         | _ => [s']
         end
       else [])
      ++ tails_after_dots s'
  end.

(** The domain itself and what is left of it each time its leftmost
    label is stripped, most specific first. *)
Definition label_suffixes (domain : string) : list string :=
  match domain with
  | EmptyString => []
  | _ => domain :: tails_after_dots domain
  end.

(** The first candidate that is a key of the mapping. *)
Fixpoint first_hit (m : gmap string Resolver) (candidates : list string)
  : option (string * Resolver) :=
  match candidates with
  | [] => None
  | c :: candidates' =>
      match m !! c with
      | Some reso => Some (c, reso)
      | None => first_hit m candidates'
      end
  end.

(** The entry that answers for a domain, if any: for a dotted domain
    the most specific of its label suffixes in the mapping, for a
    dot-free one the root entry. *)
Definition conditional_match (m : gmap string Resolver) (domain : string)
  : option (string * Resolver) :=
  if strings_Contains domain "." then first_hit m (label_suffixes domain)
  else (fun reso => (domain, reso)) <$> m !! ".".

(** [m] with the name of its first question, if it has one, set. *)
Definition rename_Question0 (name : string) (m : Msg) : Msg :=
  match MsgQuestion m with
  | [] => m
  | q :: qs =>
      {| Rcode := Rcode m;
         MsgQuestion := {| Name := name; Qtype := Qtype q; Qclass := Qclass q |} :: qs;
         Answer := Answer m |}
  end.

Section Specification.
Context {E : Externals}.

(** One [resolveType] for each record type, in order, with every result
    kept. *)
Fixpoint resolveTypes (b : Bootstrap) (hostname : string) (qTypes : list Z)
  : M (list (list IP * option error)) :=
  match qTypes with
  | [] => mret []
  | qType :: qTypes' =>
      r ← resolveType b hostname qType;
      rs ← resolveTypes b hostname qTypes';
      mret (r :: rs)
  end.

(** The entries that validation rejects: a placeholder upstream, a raw
    TCP/UDP upstream whose host is no literal address, an upstream of
    another protocol without hardcoded addresses. *)
Definition invalid_entry (c : BootstrappedUpstreamConfig) : bool :=
  let u := BUpstream c in
  Upstream_IsDefault u
  || (NetProtocol_eqb (Net u) NetProtocolTcpUdp
      && bool_decide (net_ParseIP (Host u) = None))
  || (negb (NetProtocol_eqb (Net u) NetProtocolTcpUdp) && (len (IPs c) =? 0)).

(** The error recorded for the invalid entry shown to the user as item [i]. *)
Definition validation_error (i : Z) (c : BootstrappedUpstreamConfig) : error :=
  let u := BUpstream c in
  if Upstream_IsDefault u then ErrUpstreamNotConfigured i (IPs c)
  else if NetProtocol_eqb (Net u) NetProtocolTcpUdp then ErrMustUseIP i u (Net u)
  else ErrRequiresIPs i u (Net u).

(** The errors of the invalid entries, in order; the first entry of
    [cfg] is item [i + 1]. *)
Fixpoint validation_errors_from (i : Z) (cfg : list BootstrappedUpstreamConfig)
  : list error :=
  match cfg with
  | [] => []
  | c :: cfg' =>
      (if invalid_entry c then [validation_error (i + 1) c] else [])
      ++ validation_errors_from (i + 1) cfg'
  end.

(** What the loop does on a hit. *)
Definition answer_through (reso : Resolver) (domainFromQuestion domain : string)
    (request : Request) : M processed :=
  '(request, result) ←
    internalResolve reso domainFromQuestion domain request;
  mret (request, (true, result)).

End Specification.

(** ** Stand-ins for the world outside

    Concrete collaborators on which the model is run: the package
    helpers as they are documented, and scripted resolvers in the place
    of the network. *)

Module Standin.

Definition ends_with_dot (s : string) : bool := strings_HasSuffix s ".".

(** [dns.Fqdn]: the name with a closing dot. *)
Definition Fqdn (s : string) : string :=
  if ends_with_dot s then s else s +:+ ".".

Definition lower (c : Ascii.ascii) : Ascii.ascii :=
  let n := Ascii.nat_of_ascii c in
  if (65 <=? n)%nat && (n <=? 90)%nat then Ascii.ascii_of_nat (n + 32) else c.

Fixpoint ToLower (s : string) : string :=
  match s with
  | EmptyString => EmptyString
  | String c s' => String (lower c) (ToLower s')
  end.

Fixpoint TrimSuffix_dot (s : string) : string :=
  match s with
  | EmptyString => EmptyString
  | String c EmptyString => if Ascii.eqb c dot then EmptyString else s
  | String c s' => String c (TrimSuffix_dot s')
  end.

(** [util.ExtractDomain]: the lower-cased name without its closing dot. *)
Definition ExtractDomain (q : Question) : string :=
  TrimSuffix_dot (ToLower (Name q)).

Definition NewMsgWithQuestion (question : string) (qType : Z) : Msg :=
  {| Rcode := 0;
     MsgQuestion := [{| Name := Fqdn question; Qtype := qType; Qclass := 1 |}];
     Answer := [] |}.

Definition digit (c : Ascii.ascii) : option Z :=
  let n := Z.of_nat (Ascii.nat_of_ascii c) - 48 in
  if (0 <=? n) && (n <=? 9) then Some n else None.

Fixpoint octets (s : string) (cur : option Z) (acc : list Z) : option (list Z) :=
  match s with
  | EmptyString => match cur with
                   | Some n => Some (acc ++ [n])
                   | None => None
                   end
  | String c s' =>
      if Ascii.eqb c dot then
        match cur with
        | Some n => octets s' None (acc ++ [n])
        | None => None
        end
      else
        match digit c with
        | Some d =>
            let n := 10 * default 0 cur + d in
            if n <=? 255 then octets s' (Some n) acc else None
        | None => None
        end
  end.

(** [net.ParseIP] on dotted-quad literals, which it returns in the
    16-byte form; everything else is taken for a hostname.  It is a
    stand-in and not the parser of Go: it knows no IPv6 literal and lets
    an octet start with a zero.  It is only run on names on which the
    two agree. *)
Definition ParseIP (s : string) : option IP :=
  match octets s None [] with
  | Some [a; b; c; d] => Some ([0; 0; 0; 0; 0; 0; 0; 0; 0; 0; 255; 255] ++ [a; b; c; d])
  | _ => None
  end.

Definition IsDefault (u : Upstream) : bool :=
  NetProtocol_eqb (Net u) NetProtocolTcpUdp && String.eqb (Host u) ""
  && (Port u =? 0) && String.eqb (Path u) "".

Definition Net_of (v : IPVersion) : string :=
  match v with
  | IPVersionDual => "ip"
  | IPVersionV4 => "ip4"
  | IPVersionV6 => "ip6"
  end.

Definition QTypes_of (v : IPVersion) : list Z :=
  match v with
  | IPVersionDual => [dns_TypeA; dns_TypeAAAA]
  | IPVersionV4 => [dns_TypeA]
  | IPVersionV6 => [dns_TypeAAAA]
  end.

Definition v6 : IP := [32; 1; 13; 184; 0; 0; 0; 0; 0; 0; 0; 0; 0; 0; 0; 1].
Definition v4 : IP := [0; 0; 0; 0; 0; 0; 0; 0; 0; 0; 255; 255; 192; 0; 2; 7].

(** The scripted resolvers, by address:
    - 1 fails every A query and answers every other query with one
      AAAA record next to a CNAME;
    - 2 answers with no record and a success code;
    - 3 answers NXDOMAIN, with a stray A record;
    - any other echoes the question section it was asked with and
      leaves the request alone. *)
Definition scripted_Resolve (r : Resolver) (req : Request) (w : unit)
  : outcome resolution * unit :=
  let answered (rcode : Z) (rrs : list RR) :=
    Returns (req, (Some {| Res := Some {| Rcode := rcode;
                                         MsgQuestion := MsgQuestion (Req req);
                                         Answer := rrs |};
                           Reason := "RESOLVED";
                           RType := ResponseTypeRESOLVED |}, None)) in
  match r with
  | 1%positive =>
      match MsgQuestion (Req req) with
      | q :: _ =>
          if Qtype q =? dns_TypeA
          then (Returns (req, (None, Some (ErrExternal "i/o timeout"))), w)
          else (answered 0 [RR_other 5; RR_AAAA v6], w)
      | [] => (Returns (req, (None, Some (ErrExternal "no question"))), w)
      end
  | 2%positive => (answered 0 [], w)
  | 3%positive => (answered 3 [RR_A v4], w)
  | _ => (answered 0 [RR_A v4], w)
  end.

#[export] Instance externals : Externals := {|
  World := unit;
  net_ParseIP := ParseIP;
  dns_Fqdn := Fqdn;
  util_ExtractDomain := ExtractDomain;
  util_NewMsgWithQuestion := NewMsgWithQuestion;
  Upstream_IsDefault := IsDefault;
  IPVersion_Net := Net_of;
  IPVersion_QTypes := QTypes_of;
  net_SplitHostPort := fun addr => inr (ErrExternal "missing port in address");
  net_JoinHostPort := fun host port => host +:+ ":" +:+ port;
  IP_String := fun _ => "";
  config_GetConfig := fun _ =>
    {| BootstrapDNS := []; UpstreamTimeout := 0; ConnectIPVersion := IPVersionDual |};
  Resolver_Resolve := scripted_Resolve;
  systemResolver_LookupIP := fun _ _ _ w => (([], Some (ErrExternal "no such host")), w);
  newUpstreamResolverUnchecked := fun _ w => (100%positive, w);
  newParallelBestResolver := fun _ w => (inr 200%positive, w);
  Chain_filtering_caching := fun _ _ w => (300%positive, w);
  rand_Intn := fun _ w => (0, w);
  Dialer_DialContext := fun _ _ w => ((None, Some (ErrExternal "connection refused")), w)
|}.

Definition start : State := {| world := tt; trace := [] |}.

(** A configured Bootstrap whose chain is the resolver 1, and the
    results of its two address queries for a hostname. *)
Definition flaky_bootstrap : Bootstrap :=
  {| resolver := Some 1%positive; bootstraped := {[100%positive := [v4]]} |}.

Definition both_results : list (list IP * option error) :=
  [([], Some (ErrExternal "i/o timeout")); ([v6], None)].

(** Bootstrap entries: two invalid ones, a valid one and a placeholder. *)
Definition by_hostname : BootstrappedUpstreamConfig :=
  {| BUpstream := {| Net := NetProtocolTcpUdp; Host := "dns.example";
                     Port := 53; Path := "" |};
     IPs := [] |}.

Definition without_IPs : BootstrappedUpstreamConfig :=
  {| BUpstream := {| Net := NetProtocolHttps; Host := "dns.example";
                     Port := 443; Path := "/dns-query" |};
     IPs := [] |}.

Definition by_address : BootstrappedUpstreamConfig :=
  {| BUpstream := {| Net := NetProtocolTcpUdp; Host := "192.0.2.7";
                     Port := 53; Path := "" |};
     IPs := [] |}.

Definition unconfigured : BootstrappedUpstreamConfig :=
  {| BUpstream := {| Net := NetProtocolTcpUdp; Host := ""; Port := 0; Path := "" |};
     IPs := [v4] |}.

Definition mixed_config : Config :=
  {| BootstrapDNS := [by_hostname; without_IPs; by_address; unconfigured];
     UpstreamTimeout := 0;
     ConnectIPVersion := IPVersionDual |}.

(** A conditional resolver with one domain and the root entry, and
    requests and answers for a name. *)
Definition routing : ConditionalUpstreamResolver :=
  {| mapping := <["." := 11%positive]> {["example.com" := 10%positive]};
     next := 20%positive |}.

Definition asking (name : string) : Request :=
  {| Req := {| Rcode := 0;
               MsgQuestion := [{| Name := name; Qtype := dns_TypeA; Qclass := 1 |}];
               Answer := [] |} |}.

Definition answer_to (name : string) : Response :=
  {| Res := Some {| Rcode := 0;
                    MsgQuestion := [{| Name := name; Qtype := dns_TypeA; Qclass := 1 |}];
                    Answer := [RR_A v4] |};
     Reason := "CONDITIONAL";
     RType := ResponseTypeCONDITIONAL |}.

End Standin.

(** ** More of what the properties are stated with *)

Section MoreSpecification.
Context {E : Externals}.

(** The queries that reach the chain for a hostname, one for each record
    type. *)
Definition chain_queries (chain : Resolver) (hostname : string) (qTypes : list Z)
  : list event :=
  (fun qType => EvResolve chain {| Req := util_NewMsgWithQuestion hostname qType |})
    <$> qTypes.

(** The addresses an accepted bootstrap entry stands for: the literal
    host of a raw TCP/UDP upstream, the hardcoded list of any other. *)
Definition declared_ips (c : BootstrappedUpstreamConfig) : list IP :=
  if NetProtocol_eqb (Net (BUpstream c)) NetProtocolTcpUdp then
    match net_ParseIP (Host (BUpstream c)) with
    | Some ip => [ip]
    | None => []
    end
  else IPs c.

(** The resolvers that are built for the accepted entries, in order. *)
Definition built_resolvers (cfg : list BootstrappedUpstreamConfig) : list event :=
  (fun c => EvNewUpstreamResolver (BUpstream c))
    <$> filter (fun c => invalid_entry c = false) cfg.

(** The record types a dial asks for: those of the configured IP version
    when there is one, else those that the network name ends in. *)
Definition dial_qTypes (v : IPVersion) (network : string) : list Z :=
  match v with
  | IPVersionDual =>
      if strings_HasSuffix network "4" then [dns_TypeA]
      else if strings_HasSuffix network "6" then [dns_TypeAAAA]
      else [dns_TypeA; dns_TypeAAAA]
  | _ => IPVersion_QTypes v
  end.

End MoreSpecification.

(** ** Stand-ins with a heap and a dialer

    A second world on which the model is run: resolvers are given fresh
    addresses from a counter, addresses split at their last colon, and
    the dialer hands out a connection. *)

Module Scripted.

Fixpoint split_at_last_colon (s : string) : option (string * string) :=
  match s with
  | EmptyString => None
  | String c s' =>
      match split_at_last_colon s' with
      | Some (host, port) => Some (String c host, port)
      | None =>
          if Ascii.eqb c (Ascii.Ascii false true false true true true false false)
          then Some (EmptyString, s')
          else None
      end
  end.

Definition SplitHostPort (addr : string) : (string * string) + error :=
  match split_at_last_colon addr with
  | Some hp => inl hp
  | None => inr (ErrExternal "missing port in address")
  end.

Definition digit_string (n : nat) : string :=
  String (Ascii.ascii_of_nat (48 + n)) EmptyString.

Definition byte_string (z : Z) : string :=
  let n := Z.to_nat z in
  (if (100 <=? n)%nat then digit_string (n / 100) else "")
  +:+ (if (10 <=? n)%nat then digit_string ((n / 10) mod 10) else "")
  +:+ digit_string (n mod 10).

(** [net.IP.String] on the 16-byte form of an IPv4 address. *)
Definition IP_to_string (ip : IP) : string :=
  match drop 12 ip with
  | [a; b; c; d] =>
      byte_string a +:+ "." +:+ byte_string b +:+ "."
      +:+ byte_string c +:+ "." +:+ byte_string d
  | _ => ""
  end.

(** The world is the next free address; the resolvers are those of
    [Standin], the dialer answers with the connection 1, and the draw
    takes the last of the [n] places. *)
#[export] Instance externals : Externals := {|
  World := positive;
  net_ParseIP := Standin.ParseIP;
  dns_Fqdn := Standin.Fqdn;
  util_ExtractDomain := Standin.ExtractDomain;
  util_NewMsgWithQuestion := Standin.NewMsgWithQuestion;
  Upstream_IsDefault := Standin.IsDefault;
  IPVersion_Net := Standin.Net_of;
  IPVersion_QTypes := Standin.QTypes_of;
  net_SplitHostPort := SplitHostPort;
  net_JoinHostPort := fun host port => host +:+ ":" +:+ port;
  IP_String := IP_to_string;
  config_GetConfig := fun _ =>
    {| BootstrapDNS := []; UpstreamTimeout := 0; ConnectIPVersion := IPVersionDual |};
  Resolver_Resolve := fun r req w => ((Standin.scripted_Resolve r req tt).1, w);
  systemResolver_LookupIP := fun _ _ _ w => (([], Some (ErrExternal "no such host")), w);
  newUpstreamResolverUnchecked := fun _ w => (w, Pos.succ w);
  newParallelBestResolver := fun _ w => (inr w, Pos.succ w);
  Chain_filtering_caching := fun _ _ w => (w, Pos.succ w);
  rand_Intn := fun n w => (n - 1, w);
  Dialer_DialContext := fun _ _ w => ((Some 1, None), w)
|}.

Definition start : State := {| world := 100%positive; trace := [] |}.

(** The state with the next free address [w] after the calls [t]. *)
Definition after (w : positive) (t : list event) : State :=
  {| world := w; trace := t |}.

(** Bootstraps over the failing chain 1 and over the answering chain 4. *)
Definition flaky : Bootstrap := {| resolver := Some 1%positive; bootstraped := ∅ |}.
Definition sound : Bootstrap := {| resolver := Some 4%positive; bootstraped := ∅ |}.

Definition over_https : UpstreamResolver :=
  {| self := 7%positive;
     upstream := {| Net := NetProtocolHttps; Host := "dns.example";
                    Port := 443; Path := "/dns-query" |} |}.

(** Two valid bootstrap entries: a raw one with a literal host and a
    hardcoded list that is not used, an HTTPS one with its list. *)
Definition raw_entry : BootstrappedUpstreamConfig :=
  {| BUpstream := {| Net := NetProtocolTcpUdp; Host := "192.0.2.7";
                     Port := 53; Path := "" |};
     IPs := [Standin.v6] |}.

Definition https_entry : BootstrappedUpstreamConfig :=
  {| BUpstream := upstream over_https; IPs := [Standin.v6; Standin.v4] |}.

Definition valid_config : Config :=
  {| BootstrapDNS := [raw_entry; https_entry];
     UpstreamTimeout := 0;
     ConnectIPVersion := IPVersionDual |}.

(** A mapping with nested domains and a key that is no whole label. *)
Definition nested : ConditionalUpstreamResolver :=
  {| mapping := <["ple.com" := 13%positive]>
                  (<["example.com" := 10%positive]> {["com" := 12%positive]});
     next := 20%positive |}.

Definition three : list IP := [[192; 0; 2; 1]; [192; 0; 2; 2]; [192; 0; 2; 3]].

End Scripted.

(** * Properties *)

Ltac step :=
  unfold mbind, M_bind, mret, M_ret, bind, ret, raise, lift; cbv beta iota.

Ltac run :=
  repeat (progress (unfold mbind, M_bind, mret, M_ret, bind, ret, raise, lift,
                      extern, extern_outcome, GetConfig, call_Resolve in *;
                    simpl in *)).

(** ** Properties of IPSet *)

Lemma len_nonneg {A} (l : list A) : 0 <= len l.
Proof. unfold len. lia. Qed.

Lemma len_pos {A} (l : list A) : l <> [] -> 0 < len l.
Proof. destruct l; [congruence|]. unfold len. simpl. lia. Qed.

Lemma advance_in_range (idx n : Z) :
  0 < n -> 0 <= uint32 (Z.rem (uint32 (idx + 1)) n) < n.
Proof.
  intros Hn. unfold uint32.
  assert (H32 : 0 < 2 ^ 32) by lia.
  pose proof (Z.mod_pos_bound (idx + 1) (2 ^ 32) H32) as Hm.
  set (k := (idx + 1) mod 2 ^ 32) in *.
  assert (Hr : 0 <= Z.rem k n < n).
  { rewrite Z.rem_mod_nonneg by lia. apply Z.mod_pos_bound. lia. }
  assert (Hk : Z.rem k n <= k).
  { rewrite Z.rem_mod_nonneg by lia. apply Z.mod_le; lia. }
  rewrite Z.mod_small by lia. lia.
Qed.

Lemma slice_index_in_range {A} (l : list A) (i : Z) :
  0 <= i < len l -> exists a, slice_index l i = Returns a /\ a ∈ l.
Proof.
  intros Hi. unfold slice_index.
  destruct (Z.ltb_spec i 0); [lia|].
  destruct (Z.leb_spec (len l) i); [lia|]. simpl.
  destruct (l !! Z.to_nat i) as [a|] eqn:E.
  - exists a. split; [done|]. by eapply list_elem_of_lookup_2.
  - apply lookup_ge_None in E. unfold len in *. lia.
Qed.

Lemma Next_spec (ips : IPSet) :
  values ips <> [] ->
  exists ips', Next ips = Returns ips' /\ values ips' = values ips /\
               0 <= index ips' < len (values ips').
Proof.
  intros Hne. pose proof (len_pos _ Hne) as Hpos. unfold Next.
  destruct (Z.eqb_spec (len (values ips)) 0); [lia|].
  unfold CompareAndSwapUint32. rewrite Z.eqb_refl. simpl.
  eexists. split; [done|]. split; [done|]. simpl.
  by apply advance_in_range.
Qed.

Lemma Next_times_spec (n : nat) (ips : IPSet) :
  values ips <> [] -> 0 <= index ips < len (values ips) ->
  exists ips', Next_times n ips = Returns ips' /\ values ips' = values ips /\
               0 <= index ips' < len (values ips').
Proof.
  revert ips. induction n as [|n IH]; intros ips Hne Hidx.
  - exists ips. by simpl.
  - simpl. destruct (Next_spec ips Hne) as (ips1 & -> & Hv & Hi).
    destruct (IH ips1) as (ips2 & -> & Hv2 & Hi2); [congruence|done|].
    exists ips2. split; [done|]. split; [congruence|done].
Qed.

Lemma pool_step_invariant vals idx pcs idx' pcs' :
  pool_step vals (idx, pcs) (idx', pcs') ->
  0 <= idx < len vals -> Forall (pc_ok vals) pcs ->
  0 <= idx' < len vals /\ Forall (pc_ok vals) pcs'.
Proof.
  intros Hstep Hidx Hpcs. inversion Hstep as [i i' pre pc pc' post Hn|i pre post]; subst.
  - apply Forall_app in Hpcs as [Hpre Hpost].
    apply Forall_cons in Hpost as [Hpc Hpost].
    inversion Hn; subst.
    + split; [done|]. apply Forall_app. split; [done|]. by constructor.
    + split; [done|]. apply Forall_app. split; [done|]. constructor; [|done].
      simpl. apply advance_in_range. pose proof (len_nonneg vals). lia.
    + split.
      * simpl in Hpc. destruct (idx =? old); lia.
      * apply Forall_app. split; [done|]. by constructor.
  - apply Forall_app in Hpcs as [Hpre Hpost].
    apply Forall_cons in Hpost as [_ Hpost].
    split; [done|]. apply Forall_app. split; [done|]. by constructor.
Qed.

(** X14: whatever the interleaving of the goroutines that call [Next], the
    shared cursor stays a valid index, so that an atomic load by
    [Current] at any moment finds an address of the list. *)
Lemma Next_interleaved_index_valid vals idx pcs idx' pcs' :
  pool_steps vals (idx, pcs) (idx', pcs') ->
  0 <= idx < len vals -> Forall (pc_ok vals) pcs ->
  0 <= idx' < len vals /\
  exists ip, Current {| values := vals; index := idx' |} = Returns ip /\ ip ∈ vals.
Proof.
  intros Hsteps.
  remember (idx, pcs) as s eqn:Es. remember (idx', pcs') as s' eqn:Es'.
  revert idx pcs Es. induction Hsteps as [s|s1 [i2 p2] s3 Hst Hrest IH];
    intros idx pcs -> Hidx Hpcs.
  - inversion Es'; subst. split; [done|]. by apply slice_index_in_range.
  - destruct (pool_step_invariant _ _ _ _ _ Hst Hidx Hpcs) as [Hi2 Hp2].
    by eapply IH.
Qed.

(** C8: an IPSet built from a non-empty list keeps, after any number of
    calls of [Next], a cursor that is a valid index of the list;
    [Current] then returns an address of the original list, and the
    list itself is the one given to the constructor. *)
Theorem IPSet_cursor_invariant (ips : list IP) (n : nat) :
  ips <> [] ->
  exists s, Next_times n (newIPSet ips) = Returns s /\
            0 <= index s < len (values s) /\
            (exists ip, Current s = Returns ip /\ ip ∈ ips) /\
            values s = ips.
Proof.
  intros Hne.
  destruct (Next_times_spec n (newIPSet ips)) as (s & Hs & Hv & Hi).
  - done.
  - simpl. pose proof (len_pos _ Hne). lia.
  - simpl in Hv. exists s. split; [done|]. split; [done|]. split; [|done].
    unfold Current. rewrite <- Hv. by apply slice_index_in_range.
Qed.

Lemma IPSet_cursor_invariant_witness :
  [[192; 0; 2; 1]; [192; 0; 2; 2]] <> ([] : list IP) /\
  exists s, Next_times 5 (newIPSet [[192; 0; 2; 1]; [192; 0; 2; 2]]) = Returns s /\
            0 <= index s < len (values s) /\
            (exists ip, Current s = Returns ip /\
                        ip ∈ [[192; 0; 2; 1]; [192; 0; 2; 2]]) /\
            values s = [[192; 0; 2; 1]; [192; 0; 2; 2]].
Proof.
  split; [discriminate|]. apply (IPSet_cursor_invariant _ 5). discriminate.
Defined.

(** C9, as the code has it: [newIPSet] takes any list, the empty one
    too, and [Current] on the set it builds returns an address exactly
    when the list has one. *)
Theorem Current_returns_iff_nonempty (ips : list IP) :
  (exists ip, Current (newIPSet ips) = Returns ip) <-> ips <> [].
Proof.
  split.
  - intros [ip Hip] ->. discriminate Hip.
  - intros Hne. destruct (slice_index_in_range ips 0) as (ip & Hip & _).
    + pose proof (len_pos _ Hne). lia.
    + by exists ip.
Qed.

(** ** Properties of Bootstrap *)

Section BootstrapProperties.
Context {E : Externals}.

Lemma collect_address_records (answer : list RR) (ips : list IP) :
  fold_left collect_address answer ips = ips ++ address_records answer.
Proof.
  revert ips. induction answer as [|a answer IH]; intros ips; simpl.
  - by rewrite app_nil_r.
  - rewrite IH. destruct a; simpl; [| |done]; by rewrite <- app_assoc.
Qed.

(** C5: in a configured Bootstrap, a resolver that is a key of
    [bootstraped] gets its precomputed list back; the state, and with it
    the trace of outside calls, is left as it was, so the chain is not
    entered. *)
Theorem resolveUpstream_short_circuit (b : Bootstrap) (chain r : Resolver)
    (ips : list IP) (host : string) (st : State) :
  resolver b = Some chain ->
  bootstraped b !! r = Some ips ->
  resolveUpstream b r host st = (Returns (ips, None), st).
Proof.
  intros Hready Hkey. unfold resolveUpstream. by rewrite Hready, Hkey.
Qed.

(** C6: for a hostname that parses as a literal IP, [UpstreamIPs] returns
    the singleton set of that IP and [resolveType] returns that IP for
    every record type, both without a call to the outside. *)
Theorem literal_IP_without_resolution (hostname : string) (ip : IP) :
  net_ParseIP hostname = Some ip ->
  (forall b r st, Host (upstream r) = hostname ->
     UpstreamIPs b r st = (Returns (Some {| values := [ip]; index := 0 |}, None), st)) /\
  (forall b qType st,
     resolveType b hostname qType st = (Returns ([ip], None), st)).
Proof.
  intros Hip. split.
  - intros b r st Hhost. unfold UpstreamIPs. by rewrite Hhost, Hip.
  - intros b qType st. unfold resolveType. by rewrite Hip.
Qed.

(** C7: for a hostname that is not a literal, [resolveType] asks the
    chain once with the question built for the record type; an error of
    the chain is handed on, a response with a non-success code gives no
    address and no error, and a successful response gives the addresses
    of its A and AAAA records and nothing else. *)
Theorem resolveType_non_literal (b : Bootstrap) (chain : Resolver)
    (hostname : string) (qType : Z) (st : State)
    (req' : Request) (rsp : option Response) (err : option error) (w' : World) :
  net_ParseIP hostname = None ->
  resolver b = Some chain ->
  let req := {| Req := util_NewMsgWithQuestion hostname qType |} in
  Resolver_Resolve chain req (world st) = (Returns (req', (rsp, err)), w') ->
  let st' := {| world := w'; trace := trace st ++ [EvResolve chain req] |} in
  (forall e, err = Some e ->
     resolveType b hostname qType st = (Returns ([], Some e), st')) /\
  (forall r res, err = None -> rsp = Some r -> Res r = Some res ->
     Rcode res <> dns_RcodeSuccess ->
     resolveType b hostname qType st = (Returns ([], None), st')) /\
  (forall r res, err = None -> rsp = Some r -> Res r = Some res ->
     Rcode res = dns_RcodeSuccess ->
     resolveType b hostname qType st
     = (Returns (address_records (Answer res), None), st')).
Proof.
  intros Hlit Hready req Hchain st'.
  unfold resolveType. rewrite Hlit, Hready. run. fold req. rewrite Hchain.
  split; [|split].
  - by intros e ->.
  - intros r res -> -> Hres Hcode. rewrite Hres.
    destruct (Z.eqb_spec (Rcode res) dns_RcodeSuccess); [done|]. done.
  - intros r res -> -> Hres Hcode. rewrite Hres, Hcode. simpl.
    by rewrite collect_address_records.
Qed.

Lemma appended_step (err : option error) (e : error) (errs : list error) :
  appended (Some (MultiError (multierror_Append err e))) errs
  = appended err (e :: errs).
Proof.
  unfold appended, multierror_Append. destruct errs as [|e' errs]; simpl.
  - by rewrite app_nil_r.
  - by rewrite <- !app_assoc.
Qed.

Lemma resolve_loop_spec (b : Bootstrap) (hostname : string) (qTypes : list Z) :
  forall ips err st results st',
    resolveTypes b hostname qTypes st = (Returns results, st') ->
    resolve_loop b hostname qTypes ips err st
    = (Returns (ips ++ addresses_of results, appended err (errors_of results)), st').
Proof.
  induction qTypes as [|qType qTypes IH]; intros ips err st results st' Hall.
  - run. injection Hall as <- <-. simpl.
    unfold addresses_of, errors_of. simpl. by rewrite app_nil_r.
  - simpl in *. run.
    destruct (resolveType b hostname qType st) as [[[qIPs qErr]|p] st1]; [|done].
    destruct (resolveTypes b hostname qTypes st1) as [[rs|p] st2] eqn:Hrest; [|done].
    injection Hall as <- <-.
    destruct qErr as [e|].
    + rewrite (IH _ _ _ _ _ Hrest). unfold addresses_of, errors_of. simpl.
      fold (errors_of rs). by rewrite appended_step.
    + rewrite (IH _ _ _ _ _ Hrest). unfold addresses_of, errors_of. simpl.
      by rewrite <- app_assoc.
Qed.

(** C2, as the code has it: [resolve] returns the addresses of the
    record types that were resolved without error; as soon as one
    record type failed it also returns the aggregated errors, whether or
    not another type gave addresses; with no failure it returns the
    addresses and no error, or a "no such host" error when there is no
    address at all. *)
Theorem resolve_aggregates (b : Bootstrap) (hostname : string) (qTypes : list Z)
    (st : State) (results : list (list IP * option error)) (st' : State) :
  resolveTypes b hostname qTypes st = (Returns results, st') ->
  let ips := addresses_of results in
  let errs := errors_of results in
  (errs <> [] ->
     resolve b hostname qTypes st
     = (Returns (ips, Some (MultiError (concat (multierror_flatten <$> errs)))), st')) /\
  (errs = [] -> ips = [] ->
     resolve b hostname qTypes st
     = (Returns ([], Some (ErrNoSuchHost hostname)), st')) /\
  (errs = [] -> ips <> [] ->
     resolve b hostname qTypes st = (Returns (ips, None), st')).
Proof.
  intros Hall ips errs. unfold resolve.
  pose proof (resolve_loop_spec b hostname qTypes [] None st results st' Hall) as Hloop.
  run. rewrite Hloop. fold ips errs. unfold appended.
  split; [|split].
  - intros Herrs. by destruct errs.
  - intros -> ->. done.
  - intros -> Hips. destruct ips; [done|]. done.
Qed.

Lemma validation_error_flat (i : Z) (c : BootstrappedUpstreamConfig) :
  multierror_flatten (validation_error i c) = [validation_error i c].
Proof.
  unfold validation_error.
  destruct (Upstream_IsDefault _); [done|]. by destruct (NetProtocol_eqb _ _).
Qed.

Lemma recorded_step (multiErr : option (list error)) (e : error) (errs : list error) :
  multierror_flatten e = [e] ->
  recorded (Some (multierror_Append (MultiError <$> multiErr) e)) errs
  = recorded multiErr (e :: errs).
Proof.
  intros He. unfold recorded, multierror_Append. rewrite He.
  destruct multiErr as [es|], errs as [|e' errs']; simpl;
    rewrite <- ?app_assoc; done.
Qed.

Lemma newBootstrapedResolvers_loop_spec (cfg : list BootstrappedUpstreamConfig) :
  forall i upstreamIPs multiErr st,
  exists m st',
    newBootstrapedResolvers_loop i cfg upstreamIPs multiErr st
    = (Returns (m, recorded multiErr (validation_errors_from i cfg)), st').
Proof.
  induction cfg as [|c cfg IH]; intros i upstreamIPs multiErr st.
  - by exists upstreamIPs, st.
  - simpl. unfold invalid_entry, validation_error.
    destruct (Upstream_IsDefault (BUpstream c)) eqn:Hdef; simpl.
    { edestruct IH as (m & st' & ->). exists m, st'.
      rewrite recorded_step; [done|done]. }
    destruct (NetProtocol_eqb (Net (BUpstream c)) NetProtocolTcpUdp) eqn:Hnet; simpl.
    + destruct (net_ParseIP (Host (BUpstream c))) as [ip|] eqn:Hip; simpl.
      * run. destruct (newUpstreamResolverUnchecked _ _) as [r w].
        edestruct IH as (m & st' & ->). by exists m, st'.
      * edestruct IH as (m & st' & ->). exists m, st'.
        rewrite recorded_step; [done|done].
    + destruct (len (IPs c) =? 0) eqn:Hlen; simpl.
      * edestruct IH as (m & st' & ->). exists m, st'.
        rewrite recorded_step; [done|done].
      * run. destruct (newUpstreamResolverUnchecked _ _) as [r w].
        edestruct IH as (m & st' & ->). by exists m, st'.
Qed.

Lemma validation_errors_invalid (cfg : list BootstrappedUpstreamConfig) (i : Z) :
  Exists (fun c => invalid_entry c = true) cfg ->
  validation_errors_from i cfg <> [].
Proof.
  intros Hex. revert i. induction Hex as [c cfg Hc|c cfg _ IH]; intros i; simpl.
  - by rewrite Hc.
  - specialize (IH (i + 1)). destruct (invalid_entry c); [done|]. done.
Qed.

Lemma validation_errors_complete (cfg : list BootstrappedUpstreamConfig) :
  forall (i : Z) (k : nat) (c : BootstrappedUpstreamConfig),
    cfg !! k = Some c -> invalid_entry c = true ->
    validation_error (i + Z.of_nat k + 1) c ∈ validation_errors_from i cfg.
Proof.
  induction cfg as [|c0 cfg IH]; intros i k c Hk Hc; [done|].
  destruct k as [|k]; simpl in *.
  - injection Hk as ->. rewrite Hc. replace (i + Z.of_nat 0 + 1) with (i + 1) by lia.
    apply elem_of_cons. by left.
  - apply elem_of_app. right.
    replace (i + Z.of_nat (S k) + 1) with (i + 1 + Z.of_nat k + 1) by lia. by apply IH.
Qed.

Lemma validation_errors_length (cfg : list BootstrappedUpstreamConfig) (i : Z) :
  length (validation_errors_from i cfg)
  = length (filter (fun c => invalid_entry c = true) cfg).
Proof.
  revert i. induction cfg as [|c cfg IH]; intros i; [done|].
  simpl. rewrite length_app, IH.
  destruct (invalid_entry c) eqn:Hc; simpl.
  - by rewrite filter_cons_True.
  - rewrite filter_cons_False; [done|]. by rewrite Hc.
Qed.

(** C3: when at least one entry of the bootstrap configuration is
    invalid, [NewBootstrap] returns no Bootstrap and one error that wraps
    the multi-error of the validation errors of all the invalid entries,
    one for each of them, in order. *)
Theorem NewBootstrap_fails_atomically (cfg : Config) (st : State) :
  Exists (fun c => invalid_entry c = true) (BootstrapDNS cfg) ->
  let errs := validation_errors_from 0 (BootstrapDNS cfg) in
  (exists st',
     NewBootstrap cfg st
     = (Returns (None, Some (ErrInvalidBootstrapDns (MultiError errs))), st')) /\
  (forall (k : nat) (c : BootstrappedUpstreamConfig),
     BootstrapDNS cfg !! k = Some c -> invalid_entry c = true ->
     validation_error (Z.of_nat k + 1) c ∈ errs) /\
  length errs
  = length (filter (fun c => invalid_entry c = true) (BootstrapDNS cfg)).
Proof.
  intros Hinv errs. split; [|split].
  - unfold NewBootstrap, newBootstrapedResolvers.
    destruct (newBootstrapedResolvers_loop_spec (BootstrapDNS cfg) 0 ∅ None st)
      as (m & st' & Hloop).
    run. rewrite Hloop. unfold recorded. fold errs.
    pose proof (validation_errors_invalid _ 0 Hinv) as Hne. fold errs in Hne.
    exists st'. by destruct errs.
  - intros k c Hk Hc. by apply (validation_errors_complete _ 0 k c).
  - apply validation_errors_length.
Qed.

(** C10: without a resolver the transport that [NewHTTPTransport]
    returns has no dial hook, and that is the Bootstrap that
    [NewBootstrap] builds from a configuration without bootstrap DNS
    entries: nothing of the Bootstrap stands between such a transport
    and its dials, whereas [resolveUpstream] on the same Bootstrap asks
    the system resolver. *)
Theorem unconfigured_transport_has_no_dial_hook :
  (forall b : Bootstrap,
     resolver b = None -> NewHTTPTransport b = {| DialContext := None |}) /\
  (forall (cfg : Config) (st : State),
     BootstrapDNS cfg = [] ->
     exists b, NewBootstrap cfg st = (Returns (Some b, None), st) /\
               resolver b = None /\
               NewHTTPTransport b = {| DialContext := None |}) /\
  (forall (b : Bootstrap) (r : Resolver) (host : string) (st : State),
     resolver b = None ->
     exists timeout network,
       trace (resolveUpstream b r host st).2
       = trace st ++ [EvLookupIP timeout network host]).
Proof.
  split; [|split].
  - intros b Hnil. unfold NewHTTPTransport. by rewrite Hnil.
  - intros cfg st Hcfg. eexists. split; [|split].
    + unfold NewBootstrap, newBootstrapedResolvers. rewrite Hcfg. run.
      rewrite map_size_empty. simpl. reflexivity.
    + done.
    + done.
  - intros b r host st Hnil. unfold resolveUpstream. rewrite Hnil. run.
    destruct (systemResolver_LookupIP _ _ _ _) as [res w]. simpl. eauto.
Qed.

(** The emptiness check that [newIPSet] does not make is made by
    [resolve]: it returns without error only with an address. *)
Lemma resolve_success_nonempty (b : Bootstrap) (hostname : string)
    (qTypes : list Z) (st st' : State) (ips : list IP) :
  resolve b hostname qTypes st = (Returns (ips, None), st') -> ips <> [].
Proof.
  unfold resolve. run.
  destruct (resolve_loop b hostname qTypes [] None st) as [[[ips0 [e|]]|p] st1];
    [congruence| |congruence].
  destruct (Z.eqb_spec (len ips0) 0) as [|Hlen]; [congruence|].
  intros [= <- <-] ->. by apply Hlen.
Qed.

(** In a configured Bootstrap whose hardcoded lists are not empty, every
    set that [UpstreamIPs] returns without error has an address. *)
Lemma UpstreamIPs_nonempty (b : Bootstrap) (chain : Resolver)
    (r : UpstreamResolver) (st st' : State) (s : IPSet) :
  resolver b = Some chain ->
  (forall k ips, bootstraped b !! k = Some ips -> ips <> []) ->
  UpstreamIPs b r st = (Returns (Some s, None), st') ->
  values s <> [].
Proof.
  intros Hready Hboot. unfold UpstreamIPs, resolveUpstream. rewrite Hready.
  destruct (net_ParseIP (Host (upstream r))) as [ip|].
  - run. by intros [= <- <-].
  - destruct (bootstraped b !! self r) as [ips|] eqn:Hkey.
    + run. intros [= <- <-]. simpl. by eapply Hboot.
    + step.
      destruct (resolve b (Host (upstream r)) v4v6QTypes st)
        as [[[ips [e|]]|p] st1] eqn:Hres; [congruence| |congruence].
      intros [= <- <-]. simpl. by eapply resolve_success_nonempty.
Qed.

Lemma newBootstrapedResolvers_loop_values (cfg : list BootstrappedUpstreamConfig) :
  forall i upstreamIPs multiErr st m multiErr' st',
    newBootstrapedResolvers_loop i cfg upstreamIPs multiErr st
    = (Returns (m, multiErr'), st') ->
    map_Forall (fun _ ips => ips <> []) upstreamIPs ->
    map_Forall (fun _ ips => ips <> []) m.
Proof.
  induction cfg as [|c cfg IH]; intros i upstreamIPs multiErr st m multiErr' st'.
  - simpl. run. by intros [= <- <- <-].
  - simpl.
    destruct (Upstream_IsDefault (BUpstream c)); [by apply IH|].
    destruct (NetProtocol_eqb (Net (BUpstream c)) NetProtocolTcpUdp).
    + destruct (net_ParseIP (Host (BUpstream c))) as [ip|]; [|by apply IH].
      run. destruct (newUpstreamResolverUnchecked _ _) as [r w].
      intros Hloop Hvals. eapply IH; [exact Hloop|].
      by apply map_Forall_insert_2.
    + destruct (Z.eqb_spec (len (IPs c)) 0) as [|Hlen]; [by apply IH|].
      run. destruct (newUpstreamResolverUnchecked _ _) as [r w].
      intros Hloop Hvals. eapply IH; [exact Hloop|].
      apply map_Forall_insert_2; [|done]. intros Hnil. apply Hlen.
      by rewrite Hnil.
Qed.

(** Every hardcoded list of a Bootstrap that [NewBootstrap] returns has
    an address. *)
Lemma NewBootstrap_bootstraped_nonempty (cfg : Config) (st st' : State)
    (b : Bootstrap) :
  NewBootstrap cfg st = (Returns (Some b, None), st') ->
  map_Forall (fun _ ips => ips <> []) (bootstraped b).
Proof.
  unfold NewBootstrap, newBootstrapedResolvers. step.
  destruct (newBootstrapedResolvers_loop 0 (BootstrapDNS cfg) ∅ None st)
    as [[[m [errs|]]|p] st1] eqn:Hloop; [congruence| |congruence].
  pose proof (newBootstrapedResolvers_loop_values _ _ _ _ _ _ _ _ Hloop
                (map_Forall_empty _)) as Hvals.
  destruct (Z.of_nat (size m) =? 0).
  - intros [= <- <-]. apply map_Forall_empty.
  - run. destruct (newParallelBestResolver _ _) as [[e|parallel] w]; [congruence|].
    simpl. destruct (Chain_filtering_caching _ _ _) as [chain w'].
    by intros [= <- <-].
Qed.

(** X15: [Current] returns on every set that [UpstreamIPs] yields for a
    configured Bootstrap built by [NewBootstrap]. *)
Lemma UpstreamIPs_Current_returns (cfg : Config) (st0 st1 : State)
    (b : Bootstrap) (chain : Resolver) (r : UpstreamResolver)
    (st st' : State) (s : IPSet) :
  NewBootstrap cfg st0 = (Returns (Some b, None), st1) ->
  resolver b = Some chain ->
  UpstreamIPs b r st = (Returns (Some s, None), st') ->
  exists ip, Current s = Returns ip.
Proof.
  intros Hnew Hready Hips.
  assert (Hne : values s <> []).
  { eapply UpstreamIPs_nonempty; [exact Hready| |exact Hips].
    intros k ips Hk.
    exact (NewBootstrap_bootstraped_nonempty _ _ _ _ Hnew k ips Hk). }
  assert (Hidx : index s = 0).
  { revert Hips. unfold UpstreamIPs.
    destruct (net_ParseIP _); [run; by intros [= <- _]|]. step.
    destruct (resolveUpstream _ _ _ _) as [[[ips [e|]]|p] st2];
      [congruence| |congruence].
    by intros [= <- _]. }
  unfold Current. rewrite Hidx.
  destruct (slice_index_in_range (values s) 0) as (ip & Hip & _).
  - pose proof (len_pos _ Hne). lia.
  - by exists ip.
Qed.

End BootstrapProperties.

(** ** Properties of ConditionalUpstreamResolver *)

Lemma Index_from_shift (s substr : string) (i : Z) :
  Index_from i s substr
  = if Index_from 0 s substr <? 0 then -1 else i + Index_from 0 s substr.
Proof.
  revert i. induction s as [|c s IH]; intros i; cbn [Index_from].
  - destruct (strings_HasPrefix "" substr); simpl; [lia|done].
  - destruct (strings_HasPrefix (String c s) substr); [simpl; lia|].
    rewrite (IH (i + 1)), (IH (0 + 1)).
    destruct (Z.ltb_spec (Index_from 0 s substr) 0) as [Hn|Hn]; [done|].
    destruct (Z.ltb_spec (0 + 1 + Index_from 0 s substr) 0); lia.
Qed.

Lemma Index_from_nonneg (s substr : string) :
  Index_from 0 s substr = -1 \/ 0 <= Index_from 0 s substr.
Proof.
  induction s as [|c s IH]; cbn [Index_from].
  - destruct (strings_HasPrefix "" substr); lia.
  - destruct (strings_HasPrefix (String c s) substr); [lia|].
    rewrite Index_from_shift. destruct (Z.ltb_spec (Index_from 0 s substr) 0); lia.
Qed.

Lemma strip_label_dot (s : string) : strip_label (String dot s) = Some s.
Proof. reflexivity. Qed.

Lemma strip_label_other (c : Ascii.ascii) (s : string) :
  Ascii.eqb c dot = false -> strip_label (String c s) = strip_label s.
Proof.
  intros Hc. unfold strip_label, strings_Index.
  cbn [Index_from strings_HasPrefix].
  unfold dot in Hc. rewrite Ascii.eqb_sym, Hc. rewrite Index_from_shift.
  destruct (Index_from_nonneg s ".") as [Hi|Hi].
  - rewrite Hi. done.
  - destruct (Z.ltb_spec (Index_from 0 s ".") 0); [lia|].
    destruct (Z.leb_spec 0 (Index_from 0 s ".")); [|lia].
    destruct (Z.leb_spec 0 (0 + 1 + Index_from 0 s ".")); [|lia].
    replace (Z.to_nat (0 + 1 + Index_from 0 s "." + 1))
      with (S (Z.to_nat (Index_from 0 s "." + 1))) by lia.
    done.
Qed.

Lemma tails_after_dots_strip (s : string) :
  tails_after_dots s
  = match strip_label s with
    | Some s' => label_suffixes s'
    | None => []
    end.
Proof.
  induction s as [|c s IH]; [done|]. simpl.
  destruct (Ascii.eqb c dot) eqn:Hc.
  - apply Ascii.eqb_eq in Hc as ->. rewrite strip_label_dot.
    by destruct s.
  - rewrite strip_label_other by done. done.
Qed.

Lemma label_suffixes_unfold (domain : string) :
  domain <> "" ->
  label_suffixes domain
  = domain :: match strip_label domain with
              | Some domain' => label_suffixes domain'
              | None => []
              end.
Proof.
  intros Hne. destruct domain; [done|].
  unfold label_suffixes at 1. by rewrite tails_after_dots_strip.
Qed.

Lemma len_zero_empty (s : string) :
  (0 <? Z.of_nat (String.length s)) = false -> s = "".
Proof. destruct s; [done|]. intros H%Z.ltb_ge. simpl in H. lia. Qed.

Lemma len_pos_nonempty (s : string) :
  (0 <? Z.of_nat (String.length s)) = true -> s <> "".
Proof. by intros H ->. Qed.

Section ConditionalProperties.
Context {E : Externals}.

Lemma processRequest_loop_spec (r : ConditionalUpstreamResolver)
    (domainFromQuestion domain : string) (request : Request) (st : State) :
  processRequest_loop r domainFromQuestion domain request st
  = match first_hit (mapping r) (label_suffixes domain) with
    | Some (k, reso) => answer_through reso domainFromQuestion k request st
    | None => (Returns (request, (false, (None, None))), st)
    end.
Proof.
  funelim (processRequest_loop r domainFromQuestion domain request).
  - by rewrite (len_zero_empty domain).
  - rewrite label_suffixes_unfold by (by apply len_pos_nonempty).
    simpl. match goal with H : mapping r !! domain = _ |- _ => rewrite H end.
    done.
  - rewrite label_suffixes_unfold by (by apply len_pos_nonempty).
    simpl.
    match goal with H : mapping r !! domain = _ |- _ => rewrite H end.
    match goal with H : strip_label domain = _ |- _ => rewrite H end.
    match goal with IH : forall _ : State, _ |- _ => apply (IH st) end.
  - rewrite label_suffixes_unfold by (by apply len_pos_nonempty).
    simpl.
    match goal with H : mapping r !! domain = _ |- _ => rewrite H end.
    match goal with H : strip_label domain = _ |- _ => rewrite H end.
    done.
Qed.

Lemma first_hit_found (m : gmap string Resolver) (pre post : list string)
    (k : string) (reso : Resolver) :
  (forall c, c ∈ pre -> m !! c = None) -> m !! k = Some reso ->
  first_hit m (pre ++ k :: post) = Some (k, reso).
Proof.
  intros Hpre Hk. induction pre as [|c pre IH]; simpl.
  - by rewrite Hk.
  - rewrite (Hpre c) by (apply elem_of_cons; by left).
    apply IH. intros c' Hc'. apply Hpre. apply elem_of_cons. by right.
Qed.

Lemma first_hit_none (m : gmap string Resolver) (candidates : list string) :
  (forall c, c ∈ candidates -> m !! c = None) -> first_hit m candidates = None.
Proof.
  induction candidates as [|c cs IH]; intros Hall; [done|]. simpl.
  rewrite (Hall c) by (apply elem_of_cons; by left).
  apply IH. intros c' Hc'. apply Hall. apply elem_of_cons. by right.
Qed.

Lemma first_hit_key (m : gmap string Resolver) (candidates : list string)
    (k : string) (reso : Resolver) :
  first_hit m candidates = Some (k, reso) -> m !! k = Some reso.
Proof.
  induction candidates as [|c cs IH]; [done|]. simpl.
  destruct (m !! c) as [r0|] eqn:Hc; [|done]. by intros [= <- <-].
Qed.

Lemma conditional_match_key (m : gmap string Resolver) (domain k : string)
    (reso : Resolver) :
  conditional_match m domain = Some (k, reso) -> exists k', m !! k' = Some reso.
Proof.
  unfold conditional_match. destruct (strings_Contains domain ".").
  - intros H%first_hit_key. by exists k.
  - destruct (m !! ".") as [r0|] eqn:Hroot; [|done].
    intros [= <- <-]. by exists ".".
Qed.

Lemma mapping_size_pos (m : gmap string Resolver) (k : string) (reso : Resolver) :
  m !! k = Some reso -> (0 <? Z.of_nat (size m)) = true.
Proof.
  intros Hk. apply Z.ltb_lt.
  assert (size m <> 0%nat); [|lia].
  apply map_size_ne_0_lookup. by exists k, reso.
Qed.

(** On a match [Resolve] is the resolution through the matched
    sub-pipeline. *)
Lemma Resolve_matched (r : ConditionalUpstreamResolver) (req : Request)
    (q : Question) (qs : list Question) (k : string) (reso : Resolver) (st : State) :
  MsgQuestion (Req req) = q :: qs ->
  conditional_match (mapping r) (util_ExtractDomain q) = Some (k, reso) ->
  Resolve r req st = internalResolve reso (util_ExtractDomain q) k req st.
Proof.
  intros Hq Hmatch.
  destruct (conditional_match_key _ _ _ _ Hmatch) as [k' Hk'].
  unfold Resolve. rewrite (mapping_size_pos _ _ _ Hk').
  unfold processRequest, Question0. rewrite Hq.
  unfold conditional_match in Hmatch.
  step.
  destruct (strings_Contains (util_ExtractDomain q) ".").
  - rewrite processRequest_loop_spec, Hmatch. unfold answer_through. step.
    by destruct (internalResolve reso _ k req st) as [[[req' result]|p] st1].
  - destruct (mapping r !! ".") as [r0|]; [|done].
    injection Hmatch as <- <-. step.
    by destruct (internalResolve r0 _ _ req st) as [[[req' result]|p] st1].
Qed.

(** Without a match [Resolve] hands the request, as it came, to the
    next link. *)
Lemma Resolve_unmatched (r : ConditionalUpstreamResolver) (req : Request)
    (q : Question) (qs : list Question) (st : State) :
  MsgQuestion (Req req) = q :: qs ->
  conditional_match (mapping r) (util_ExtractDomain q) = None ->
  Resolve r req st = call_Resolve (next r) req st.
Proof.
  intros Hq Hmatch. unfold Resolve.
  destruct (0 <? Z.of_nat (size (mapping r))); [|done].
  unfold processRequest, Question0. rewrite Hq.
  unfold conditional_match in Hmatch.
  step.
  destruct (strings_Contains (util_ExtractDomain q) ".").
  - by rewrite processRequest_loop_spec, Hmatch.
  - by destruct (mapping r !! ".") as [r0|].
Qed.

Lemma root_among_tails (s : string) :
  "." ∈ tails_after_dots s -> strings_HasSuffix s ".." = true.
Proof.
  induction s as [|c s IH]; simpl.
  - by intros ?%elem_of_nil.
  - intros [Hhere|Hlater]%elem_of_app.
    + destruct (Ascii.eqb c dot) eqn:Hc; [|by apply elem_of_nil in Hhere].
      apply Ascii.eqb_eq in Hc as ->.
      destruct s as [|c' s']; [by apply elem_of_nil in Hhere|].
      apply list_elem_of_singleton in Hhere as <-. reflexivity.
    + rewrite (IH Hlater).
      by match goal with |- (if ?b then _ else _) = _ => destruct b end.
Qed.

(** C4: for a dotted domain the candidates are the domain and what is
    left of it each time the leftmost label is stripped, and the first
    candidate in the mapping answers; without a candidate in the mapping
    the request goes unchanged to the next link.  A dot-free domain is
    looked up under the root entry only, and the root entry is a
    candidate of no domain but the root itself and those that end in an
    empty label. *)
Theorem conditional_match_order (r : ConditionalUpstreamResolver) (req : Request)
    (q : Question) (qs : list Question) (st : State) :
  MsgQuestion (Req req) = q :: qs ->
  let domain := util_ExtractDomain q in
  (strings_Contains domain "." = true ->
     (forall pre k post reso,
        label_suffixes domain = pre ++ k :: post ->
        (forall c, c ∈ pre -> mapping r !! c = None) ->
        mapping r !! k = Some reso ->
        Resolve r req st = internalResolve reso domain k req st) /\
     ((forall c, c ∈ label_suffixes domain -> mapping r !! c = None) ->
        Resolve r req st = call_Resolve (next r) req st)) /\
  (strings_Contains domain "." = false ->
     (forall reso,
        mapping r !! "." = Some reso ->
        Resolve r req st = internalResolve reso domain domain req st) /\
     (mapping r !! "." = None ->
        Resolve r req st = call_Resolve (next r) req st)) /\
  ("." ∈ label_suffixes domain ->
     domain = "." \/ strings_HasSuffix domain ".." = true).
Proof.
  intros Hq domain. split; [|split].
  - intros Hdot. split.
    + intros pre k post reso Hsplit Hpre Hk.
      apply (Resolve_matched r req q qs k reso st Hq).
      unfold conditional_match. fold domain. rewrite Hdot, Hsplit.
      by apply first_hit_found.
    + intros Hnone. apply (Resolve_unmatched r req q qs st Hq).
      unfold conditional_match. fold domain. rewrite Hdot.
      by apply first_hit_none.
  - intros Hdot. split.
    + intros reso Hroot.
      apply (Resolve_matched r req q qs domain reso st Hq).
      unfold conditional_match. fold domain. by rewrite Hdot, Hroot.
    + intros Hroot. apply (Resolve_unmatched r req q qs st Hq).
      unfold conditional_match. fold domain. by rewrite Hdot, Hroot.
  - unfold label_suffixes. destruct domain as [|c d] eqn:Hd.
    + by intros ?%elem_of_nil.
    + intros [Hself|Htail]%elem_of_cons; [by left|].
      right. by apply root_among_tails.
Qed.

Lemma set_Question0_Name_rename (name : string) (m : Msg) :
  MsgQuestion m <> [] ->
  set_Question0_Name name m = Returns (rename_Question0 name m).
Proof.
  unfold set_Question0_Name, rename_Question0. by destruct (MsgQuestion m).
Qed.

(** C1, as the code has it: on a match the request goes to the
    sub-pipeline with the name of its first question set to the
    fully-qualified form of the extracted domain, and that name is not
    set back: the request is returned as the sub-pipeline left it.  On
    success the response is tagged as conditional and the name of its
    first question is the one found in the request at that moment; on
    error the response of the sub-pipeline is returned as it is. *)
Theorem conditional_rewrite_is_kept (r : ConditionalUpstreamResolver)
    (req : Request) (q : Question) (qs : list Question) (k : string)
    (reso : Resolver) (st : State)
    (req' : Request) (rsp : option Response) (err : option error) (w' : World) :
  MsgQuestion (Req req) = q :: qs ->
  conditional_match (mapping r) (util_ExtractDomain q) = Some (k, reso) ->
  let sent :=
    {| Req := rename_Question0 (dns_Fqdn (util_ExtractDomain q)) (Req req) |} in
  Resolver_Resolve reso sent (world st) = (Returns (req', (rsp, err)), w') ->
  let st' := {| world := w'; trace := trace st ++ [EvResolve reso sent] |} in
  (Name <$> head (MsgQuestion (Req sent))
   = Some (dns_Fqdn (util_ExtractDomain q))) /\
  (forall e, err = Some e ->
     (forall r0, rsp = Some r0 -> Res r0 <> None) ->
     Resolve r req st = (Returns (req', (rsp, Some e)), st')) /\
  (forall r0 res q' qs',
     err = None -> rsp = Some r0 -> Res r0 = Some res ->
     MsgQuestion (Req req') = q' :: qs' ->
     Resolve r req st
     = (Returns (req', (Some {| Res := Some (rename_Question0 (Name q') res);
                                Reason := "CONDITIONAL";
                                RType := ResponseTypeCONDITIONAL |}, None)),
        st')).
Proof.
  intros Hq Hmatch sent Hsub st'.
  split; [|split].
  - unfold sent, rename_Question0. by rewrite Hq.
  - intros e -> Hres. rewrite (Resolve_matched r req q qs k reso st Hq Hmatch).
    unfold internalResolve. rewrite set_Question0_Name_rename by (by rewrite Hq).
    run. fold sent. rewrite Hsub. fold st'.
    destruct rsp as [r0|]; [|done].
    specialize (Hres r0 eq_refl). by destruct (Res r0).
  - intros r0 res q' qs' -> -> Hres Hq'.
    rewrite (Resolve_matched r req q qs k reso st Hq Hmatch).
    unfold internalResolve. rewrite set_Question0_Name_rename by (by rewrite Hq).
    run. fold sent. rewrite Hsub. fold st'. rewrite Hres.
    unfold Question0, set_Question0_Name, rename_Question0. rewrite Hq'.
    unfold len. destruct (MsgQuestion res) as [|x xs]; simpl; [|done].
    by destruct res.
Qed.

End ConditionalProperties.

(** ** Further properties of IPSet *)

Lemma advance_is_successor (idx n : Z) :
  0 <= idx < n -> n <= 2 ^ 32 ->
  uint32 (Z.rem (uint32 (idx + 1)) n) = (idx + 1) mod n.
Proof.
  intros Hidx Hn. unfold uint32.
  destruct (Z.eq_dec (idx + 1) (2 ^ 32)) as [Hwrap|Hsmall].
  - assert (n = 2 ^ 32) as -> by lia.
    rewrite Hwrap, Z.mod_same by lia. by rewrite Z.rem_0_l by lia.
  - rewrite (Z.mod_small (idx + 1)) by lia.
    rewrite Z.rem_mod_nonneg by lia.
    pose proof (Z.mod_pos_bound (idx + 1) n ltac:(lia)).
    by rewrite Z.mod_small by lia.
Qed.

Lemma Next_times_from (n : nat) (s : IPSet) :
  0 <= index s < len (values s) -> len (values s) <= 2 ^ 32 ->
  Next_times n s
  = Returns {| values := values s;
               index := (index s + Z.of_nat n) mod len (values s) |}.
Proof.
  revert s. induction n as [|n IH]; intros s Hidx Hlen.
  - simpl. rewrite Z.add_0_r, Z.mod_small by lia. by destruct s.
  - cbn [Next_times]. unfold Next, CompareAndSwapUint32.
    destruct (Z.eqb_spec (len (values s)) 0); [lia|].
    rewrite Z.eqb_refl. cbn [fst].
    rewrite advance_is_successor by lia.
    rewrite IH; cbn [values index].
    + f_equal. f_equal. rewrite Zplus_mod_idemp_l. f_equal. lia.
    + apply Z.mod_pos_bound. lia.
    + done.
Qed.

(** X1: called one after the other, [Next] goes through the addresses in
    order and starts again at the first: after [n] calls on a fresh set
    of at most 2^32 addresses, the cursor is [n] modulo their number and
    [Current] returns the address at that place. *)
Theorem Next_round_robin (ips : list IP) (n : nat) :
  ips <> [] -> len ips <= 2 ^ 32 ->
  exists ip,
    ips !! (n mod length ips)%nat = Some ip /\
    Next_times n (newIPSet ips)
    = Returns {| values := ips; index := Z.of_nat (n mod length ips) |} /\
    (forall s, Next_times n (newIPSet ips) = Returns s -> Current s = Returns ip).
Proof.
  intros Hne Hlen. pose proof (len_pos _ Hne) as Hpos.
  assert (Hlt : (n mod length ips < length ips)%nat).
  { apply Nat.mod_upper_bound. destruct ips; [done|]. simpl. lia. }
  destruct (lookup_lt_is_Some_2 ips _ Hlt) as [ip Hip].
  assert (Hrun : Next_times n (newIPSet ips)
                 = Returns {| values := ips; index := Z.of_nat (n mod length ips) |}).
  { rewrite Next_times_from; cbn [newIPSet values index]; [|lia|done].
    f_equal. f_equal. unfold len. rewrite Z.add_0_l.
    rewrite Nat2Z.inj_mod. done. }
  exists ip. split; [done|]. split; [done|].
  intros s Hs. rewrite Hrun in Hs. injection Hs as <-.
  unfold Current, slice_index. cbn [values index].
  destruct (Z.ltb_spec (Z.of_nat (n mod length ips)) 0); [lia|].
  destruct (Z.leb_spec (len ips) (Z.of_nat (n mod length ips)));
    [unfold len in *; lia|].
  simpl. by rewrite Nat2Z.id, Hip.
Qed.

(** ** Further properties of Bootstrap *)

Section MoreBootstrapProperties.
Context {E : Externals}.

Lemma resolve_loop_literal (b : Bootstrap) (hostname : string) (ip : IP)
    (qTypes : list Z) :
  net_ParseIP hostname = Some ip ->
  forall ips err st,
    resolve_loop b hostname qTypes ips err st
    = (Returns (ips ++ replicate (length qTypes) ip, err), st).
Proof.
  intros Hip. induction qTypes as [|qType qTypes IH]; intros ips err st.
  - simpl. step. by rewrite app_nil_r.
  - cbn [resolve_loop]. unfold resolveType at 1. rewrite Hip. step.
    rewrite IH. simpl. by rewrite <- app_assoc.
Qed.

(** X2: for a hostname that is a literal address [resolve] asks nobody
    and returns the address once for each requested record type; with no
    record type requested it reports "no such host", literal or not. *)
Theorem resolve_literal (b : Bootstrap) (hostname : string) (ip : IP)
    (qTypes : list Z) (st : State) :
  net_ParseIP hostname = Some ip ->
  resolve b hostname qTypes st
  = (Returns (match qTypes with
              | [] => ([], Some (ErrNoSuchHost hostname))
              | _ => (replicate (length qTypes) ip, None)
              end), st).
Proof.
  intros Hip. unfold resolve. step.
  rewrite (resolve_loop_literal b hostname ip qTypes Hip). cbn [app].
  by destruct qTypes.
Qed.

Lemma resolveType_trace (b : Bootstrap) (chain : Resolver) (hostname : string)
    (qType : Z) (st : State) :
  net_ParseIP hostname = None -> resolver b = Some chain ->
  trace (resolveType b hostname qType st).2
  = trace st ++ chain_queries chain hostname [qType].
Proof.
  intros Hlit Hready. unfold resolveType. rewrite Hlit, Hready. run.
  destruct (Resolver_Resolve _ _ _) as [[[req' [rsp [e|]]]|p] w]; simpl; [done| |done].
  destruct rsp as [rsp|]; [|done]. destruct (Res rsp) as [res|]; [|done].
  by destruct (negb _).
Qed.

Lemma resolve_loop_trace (b : Bootstrap) (chain : Resolver) (hostname : string)
    (qTypes : list Z) :
  net_ParseIP hostname = None -> resolver b = Some chain ->
  forall ips err st res st',
    resolve_loop b hostname qTypes ips err st = (Returns res, st') ->
    trace st' = trace st ++ chain_queries chain hostname qTypes.
Proof.
  intros Hlit Hready.
  induction qTypes as [|qType qTypes IH]; intros ips err st res st'.
  - simpl. step. intros [= _ <-]. unfold chain_queries. simpl.
    by rewrite app_nil_r.
  - cbn [resolve_loop]. step.
    pose proof (resolveType_trace b chain hostname qType st Hlit Hready) as Hone.
    destruct (resolveType b hostname qType st) as [[[qIPs qErr]|p] st1];
      [|done].
    simpl in Hone. destruct qErr as [e|]; intros Hrest%IH;
      rewrite Hrest, Hone; unfold chain_queries; simpl;
      by rewrite <- app_assoc.
Qed.

(** X3: for a hostname that is not a literal, a [resolve] that returns
    has sent the chain exactly one query for each requested record type,
    in the order requested: a failed query does not end the loop. *)
Theorem resolve_queries_every_type (b : Bootstrap) (chain : Resolver)
    (hostname : string) (qTypes : list Z) (st st' : State)
    (res : list IP * option error) :
  net_ParseIP hostname = None ->
  resolver b = Some chain ->
  resolve b hostname qTypes st = (Returns res, st') ->
  trace st' = trace st ++ chain_queries chain hostname qTypes.
Proof.
  intros Hlit Hready. unfold resolve. step.
  destruct (resolve_loop b hostname qTypes [] None st)
    as [[[ips err]|p] st1] eqn:Hloop; [|done].
  apply (resolve_loop_trace b chain hostname qTypes Hlit Hready) in Hloop.
  destruct err as [e|]; [by intros [= _ <-]|].
  destruct (len ips =? 0); by intros [= _ <-].
Qed.

(** X4: for a hostname that is not a literal and a resolver that is not
    a bootstrap upstream, [UpstreamIPs] on a configured Bootstrap yields
    a set only when neither address query failed and there is an
    address; as soon as one query failed it returns no set and the
    aggregated error, and the addresses of the other family are lost. *)
Theorem UpstreamIPs_all_or_nothing (b : Bootstrap) (chain : Resolver)
    (r : UpstreamResolver) (st st' : State)
    (results : list (list IP * option error)) :
  net_ParseIP (Host (upstream r)) = None ->
  resolver b = Some chain ->
  bootstraped b !! self r = None ->
  resolveTypes b (Host (upstream r)) v4v6QTypes st = (Returns results, st') ->
  (errors_of results <> [] ->
     UpstreamIPs b r st
     = (Returns (None, Some (MultiError
                               (concat (multierror_flatten <$> errors_of results)))),
        st')) /\
  (errors_of results = [] -> addresses_of results = [] ->
     UpstreamIPs b r st
     = (Returns (None, Some (ErrNoSuchHost (Host (upstream r)))), st')) /\
  (errors_of results = [] -> addresses_of results <> [] ->
     UpstreamIPs b r st
     = (Returns (Some {| values := addresses_of results; index := 0 |}, None), st')).
Proof.
  intros Hlit Hready Hkey Hall.
  unfold UpstreamIPs, resolveUpstream, resolve.
  rewrite Hlit, Hready, Hkey. step.
  rewrite (resolve_loop_spec b _ _ [] None st results st' Hall).
  cbn [app]. unfold appended.
  split; [|split].
  - intros Herrs. by destruct (errors_of results).
  - by intros -> ->.
  - intros -> Hips. by destruct (addresses_of results).
Qed.

Lemma declared_ips_nonempty (c : BootstrappedUpstreamConfig) :
  invalid_entry c = false -> declared_ips c <> [].
Proof.
  unfold invalid_entry, declared_ips.
  destruct (Upstream_IsDefault _); [done|].
  destruct (NetProtocol_eqb _ _); simpl.
  - by destruct (net_ParseIP _).
  - destruct (Z.eqb_spec (len (IPs c)) 0) as [|Hlen]; [done|].
    intros _ Hnil. apply Hlen. by rewrite Hnil.
Qed.

Lemma built_resolvers_invalid (c : BootstrappedUpstreamConfig)
    (cfg : list BootstrappedUpstreamConfig) :
  invalid_entry c = true -> built_resolvers (c :: cfg) = built_resolvers cfg.
Proof.
  intros Hc. unfold built_resolvers. rewrite filter_cons_False; [done|].
  by rewrite Hc.
Qed.

Lemma built_resolvers_valid (c : BootstrappedUpstreamConfig)
    (cfg : list BootstrappedUpstreamConfig) :
  invalid_entry c = false ->
  built_resolvers (c :: cfg)
  = EvNewUpstreamResolver (BUpstream c) :: built_resolvers cfg.
Proof.
  intros Hc. unfold built_resolvers. by rewrite filter_cons_True.
Qed.

(** What the loop of [newBootstrapedResolvers] leaves: the errors of
    the invalid entries, one resolver built for each valid entry, and a
    map that holds what it held and the declared addresses of valid
    entries. *)
Lemma newBootstrapedResolvers_loop_full (cfg : list BootstrappedUpstreamConfig) :
  forall i upstreamIPs multiErr st,
  exists m st',
    newBootstrapedResolvers_loop i cfg upstreamIPs multiErr st
    = (Returns (m, recorded multiErr (validation_errors_from i cfg)), st') /\
    trace st' = trace st ++ built_resolvers cfg /\
    (forall k ips, m !! k = Some ips ->
       upstreamIPs !! k = Some ips \/
       exists c, c ∈ cfg /\ invalid_entry c = false /\ ips = declared_ips c) /\
    (upstreamIPs <> ∅ \/ Exists (fun c => invalid_entry c = false) cfg -> m <> ∅).
Proof.
  induction cfg as [|c cfg IH]; intros i upstreamIPs multiErr st.
  - exists upstreamIPs, st. split; [done|]. split.
    { unfold built_resolvers. simpl. by rewrite app_nil_r. }
    split; [by left|]. intros [H|H]; [done|]. by apply Exists_nil in H.
  - assert (Hskip : forall e,
              invalid_entry c = true ->
              multierror_flatten e = [e] ->
              validation_error (i + 1) c = e ->
              exists m st',
                newBootstrapedResolvers_loop (i + 1) cfg upstreamIPs
                  (Some (multierror_Append (MultiError <$> multiErr) e)) st
                = (Returns (m, recorded multiErr
                                 (validation_errors_from i (c :: cfg))), st') /\
                trace st' = trace st ++ built_resolvers (c :: cfg) /\
                (forall k ips, m !! k = Some ips ->
                   upstreamIPs !! k = Some ips \/
                   exists c0, c0 ∈ c :: cfg /\ invalid_entry c0 = false /\
                              ips = declared_ips c0) /\
                (upstreamIPs <> ∅ \/
                 Exists (fun c0 => invalid_entry c0 = false) (c :: cfg) -> m <> ∅)).
    { intros e Hc He Hve.
      destruct (IH (i + 1) upstreamIPs
                  (Some (multierror_Append (MultiError <$> multiErr) e)) st)
        as (m & st' & Hloop & Htrace & Hvals & Hne).
      exists m, st'. split; [|split; [|split]].
      - rewrite Hloop. cbn [validation_errors_from]. rewrite Hc, Hve.
        by rewrite recorded_step.
      - by rewrite built_resolvers_invalid.
      - intros k ips Hk. destruct (Hvals k ips Hk) as [?|(c0 & ? & ? & ?)];
          [by left|]. right. exists c0. split; [|done].
        apply elem_of_cons. by right.
      - intros [H|H]; [by apply Hne; left|].
        apply Exists_cons in H as [H|H]; [congruence|]. apply Hne. by right. }
    assert (Hkeep : forall ips,
              invalid_entry c = false -> ips = declared_ips c ->
              exists m st',
                (resolver ← extern (EvNewUpstreamResolver (BUpstream c))
                            (newUpstreamResolverUnchecked (BUpstream c));
                 newBootstrapedResolvers_loop (i + 1) cfg
                   (<[resolver := ips]> upstreamIPs) multiErr) st
                = (Returns (m, recorded multiErr
                                 (validation_errors_from i (c :: cfg))), st') /\
                trace st' = trace st ++ built_resolvers (c :: cfg) /\
                (forall k ips0, m !! k = Some ips0 ->
                   upstreamIPs !! k = Some ips0 \/
                   exists c0, c0 ∈ c :: cfg /\ invalid_entry c0 = false /\
                              ips0 = declared_ips c0) /\
                (upstreamIPs <> ∅ \/
                 Exists (fun c0 => invalid_entry c0 = false) (c :: cfg) -> m <> ∅)).
    { intros ips Hc Hips. run.
      destruct (newUpstreamResolverUnchecked _ _) as [r w].
      destruct (IH (i + 1) (<[r := ips]> upstreamIPs) multiErr
                  {| world := w;
                     trace := trace st ++ [EvNewUpstreamResolver (BUpstream c)] |})
        as (m & st' & Hloop & Htrace & Hvals & Hne).
      exists m, st'. split; [|split; [|split]].
      - rewrite Hloop. by rewrite Hc.
      - rewrite Htrace, built_resolvers_valid by done. simpl.
        by rewrite <- app_assoc.
      - intros k ips0 Hk. destruct (Hvals k ips0 Hk) as [Hold|(c0 & ? & ? & ?)].
        + destruct (decide (r = k)) as [->|Hrk].
          * rewrite lookup_insert_eq in Hold. injection Hold as <-.
            right. exists c. split; [apply elem_of_cons; by left|done].
          * rewrite lookup_insert_ne in Hold by done. by left.
        + right. exists c0. split; [|done]. apply elem_of_cons. by right.
      - intros _. apply Hne. left. apply insert_non_empty. }
    cbn [newBootstrapedResolvers_loop].
    destruct (Upstream_IsDefault (BUpstream c)) eqn:Hdef.
    { apply Hskip; [|done|].
      - unfold invalid_entry. by rewrite Hdef.
      - unfold validation_error. by rewrite Hdef. }
    destruct (NetProtocol_eqb (Net (BUpstream c)) NetProtocolTcpUdp) eqn:Hnet.
    + destruct (net_ParseIP (Host (BUpstream c))) as [ip|] eqn:Hip.
      * apply Hkeep.
        -- unfold invalid_entry. rewrite Hdef, Hnet, Hip. done.
        -- unfold declared_ips. by rewrite Hnet, Hip.
      * apply Hskip; [|done|].
        -- unfold invalid_entry. rewrite Hdef, Hnet, Hip. done.
        -- unfold validation_error. by rewrite Hdef, Hnet.
    + destruct (len (IPs c) =? 0) eqn:Hlen.
      * apply Hskip; [|done|].
        -- unfold invalid_entry. rewrite Hdef, Hnet, Hlen. done.
        -- unfold validation_error. by rewrite Hdef, Hnet.
      * apply Hkeep.
        -- unfold invalid_entry. rewrite Hdef, Hnet, Hlen. done.
        -- unfold declared_ips. by rewrite Hnet.
Qed.

Lemma validation_errors_valid (cfg : list BootstrappedUpstreamConfig) (i : Z) :
  Forall (fun c => invalid_entry c = false) cfg ->
  validation_errors_from i cfg = [].
Proof.
  intros Hall. revert i. induction Hall as [|c cfg Hc _ IH]; intros i; [done|].
  simpl. by rewrite Hc, IH.
Qed.

Lemma invalid_or_all_valid (cfg : list BootstrappedUpstreamConfig) :
  Exists (fun c => invalid_entry c = true) cfg \/
  Forall (fun c => invalid_entry c = false) cfg.
Proof.
  induction cfg as [|c cfg [IH|IH]].
  - right. constructor.
  - left. by apply Exists_cons_tl.
  - destruct (invalid_entry c) eqn:Hc.
    + left. by apply Exists_cons_hd.
    + right. by constructor.
Qed.

(** X5: [newBootstrapedResolvers] goes through all the entries: it
    returns an error exactly when one of them is invalid, and in either
    case it has built one unchecked resolver for each valid entry, in
    order, and nothing else. *)
Theorem newBootstrapedResolvers_visits_all (cfg : list BootstrappedUpstreamConfig)
    (st : State) :
  exists m err st',
    newBootstrapedResolvers cfg st = (Returns (m, err), st') /\
    trace st' = trace st ++ built_resolvers cfg /\
    (err = None <-> Forall (fun c => invalid_entry c = false) cfg).
Proof.
  destruct (newBootstrapedResolvers_loop_full cfg 0 ∅ None st)
    as (m & st' & Hloop & Htrace & _ & _).
  unfold newBootstrapedResolvers. step. rewrite Hloop. unfold recorded.
  destruct (invalid_or_all_valid cfg) as [Hbad|Hgood].
  - pose proof (validation_errors_invalid cfg 0 Hbad) as Hne.
    destruct (validation_errors_from 0 cfg) as [|e errs] eqn:Herrs; [done|].
    eexists _, _, st'. split; [reflexivity|]. split; [done|].
    split; [done|]. intros Hgood.
    by rewrite (validation_errors_valid cfg 0 Hgood) in Herrs.
  - rewrite (validation_errors_valid cfg 0 Hgood).
    eexists _, _, st'. split; [reflexivity|]. by split.
Qed.

(** X6: from a configuration whose bootstrap entries are all valid, and
    of which there is at least one, [NewBootstrap] returns either a
    configured Bootstrap or, with no Bootstrap, the wrapped error of the
    parallel resolver that could not be built.  The configured Bootstrap
    has a chain and a map that is not empty, in which every list is the
    declared one of a valid entry (for a raw TCP/UDP upstream the
    literal host and not the hardcoded list) and has an address. *)
Theorem NewBootstrap_configured (cfg : Config) (st : State) :
  Forall (fun c => invalid_entry c = false) (BootstrapDNS cfg) ->
  BootstrapDNS cfg <> [] ->
  exists st',
    (exists e,
       NewBootstrap cfg st = (Returns (None, Some (ErrCreateParallelBest e)), st')) \/
    (exists b chain,
       NewBootstrap cfg st = (Returns (Some b, None), st') /\
       resolver b = Some chain /\
       bootstraped b <> ∅ /\
       forall k ips, bootstraped b !! k = Some ips ->
         ips <> [] /\
         exists c, c ∈ BootstrapDNS cfg /\ ips = declared_ips c).
Proof.
  intros Hgood Hne.
  destruct (newBootstrapedResolvers_loop_full (BootstrapDNS cfg) 0 ∅ None st)
    as (m & st1 & Hloop & _ & Hvals & Hfull).
  assert (Hm : m <> ∅).
  { apply Hfull. right. destruct (BootstrapDNS cfg) as [|c l]; [done|].
    apply Exists_cons_hd. by apply Forall_cons in Hgood as [? _]. }
  unfold NewBootstrap, newBootstrapedResolvers. step. rewrite Hloop.
  rewrite (validation_errors_valid _ 0 Hgood). cbn [recorded].
  destruct (Z.eqb_spec (Z.of_nat (size m)) 0) as [Hsize|_].
  { exfalso. apply Hm. apply map_size_empty_inv. lia. }
  run. destruct (newParallelBestResolver _ _) as [[e|parallel] w]; simpl.
  - eexists. left. by exists e.
  - destruct (Chain_filtering_caching _ _ _) as [chain w'].
    eexists. right. eexists _, chain. split; [reflexivity|].
    split; [done|]. split; [done|]. simpl. intros k ips Hk.
    destruct (Hvals k ips Hk) as [Hempty|(c & Hc & Hvalid & ->)].
    + by rewrite lookup_empty in Hempty.
    + split; [by apply declared_ips_nonempty|]. by exists c.
Qed.

(** X11: the group that [ResolverGroups] makes for the parallel resolver
    holds the keys of the map and nothing else, each of them once. *)
Theorem ResolverGroups_keys_once (br : gmap Resolver (list IP)) :
  NoDup (ResolverGroups br) /\
  (forall r, r ∈ ResolverGroups br <-> is_Some (br !! r)) /\
  length (ResolverGroups br) = size br.
Proof.
  unfold ResolverGroups. split; [apply NoDup_fst_map_to_list|]. split.
  - intros r. rewrite list_elem_of_fmap. split.
    + intros ([k ips] & -> & Hin). apply elem_of_map_to_list in Hin. by exists ips.
    + intros [ips Hr]. exists (r, ips). split; [done|].
      by apply elem_of_map_to_list.
  - by rewrite length_fmap, length_map_to_list.
Qed.

Lemma dial_qTypes_code (v : IPVersion) (network : string) :
  (if negb (IPVersion_eqb v IPVersionDual) then IPVersion_QTypes v
   else if strings_HasSuffix network "4" then [dns_TypeA]
   else if strings_HasSuffix network "6" then [dns_TypeAAAA]
   else v4v6QTypes)
  = dial_qTypes v network.
Proof. by destruct v. Qed.

(** X7: the dial hook gives up before any dial: an address that does not
    split into host and port is answered with the error of the split
    and nothing is asked, and an error of [resolve] (also one that comes
    with addresses) is returned as it is, with no address drawn and no
    connection attempted. *)
Theorem dialContext_gives_up (b : Bootstrap) (network addr : string) (st : State) :
  (forall e,
     net_SplitHostPort addr = inr e ->
     dialContext b network addr st = (Returns (None, Some e), st)) /\
  (forall host port ips e st',
     net_SplitHostPort addr = inl (host, port) ->
     resolve b host
       (dial_qTypes (ConnectIPVersion (config_GetConfig (world st))) network) st
     = (Returns (ips, Some e), st') ->
     dialContext b network addr st = (Returns (None, Some e), st')).
Proof.
  split.
  - intros e Hsplit. unfold dialContext. by rewrite Hsplit.
  - intros host port ips e st' Hsplit Hres. unfold dialContext.
    rewrite Hsplit. unfold GetConfig. step. rewrite dial_qTypes_code.
    by rewrite Hres.
Qed.

(** X8: when [resolve] returns addresses without error, the dial hook
    draws one of them and dials it once, under the port of the address
    it was given; it returns what the dialer returns.  As [resolve]
    returns no empty list without error, neither the draw nor the
    indexing can panic when [rand.Intn] keeps to its range. *)
Theorem dialContext_dials_resolved (b : Bootstrap) (network addr host port : string)
    (st st1 : State) (ips : list IP) (n : Z) (w2 : World) :
  net_SplitHostPort addr = inl (host, port) ->
  resolve b host
    (dial_qTypes (ConnectIPVersion (config_GetConfig (world st))) network) st
  = (Returns (ips, None), st1) ->
  rand_Intn (len ips) (world st1) = (n, w2) ->
  (0 < len ips -> 0 <= n < len ips) ->
  exists ip,
    ips !! Z.to_nat n = Some ip /\
    let target := net_JoinHostPort (IP_String ip) port in
    dialContext b network addr st
    = (Returns (Dialer_DialContext network target w2).1,
       {| world := (Dialer_DialContext network target w2).2;
          trace := trace st1 ++ [EvRandIntn (len ips); EvDial network target] |}).
Proof.
  intros Hsplit Hres Hrand Hrange.
  pose proof (resolve_success_nonempty _ _ _ _ _ _ Hres) as Hne.
  pose proof (len_pos _ Hne) as Hpos. specialize (Hrange Hpos).
  destruct (slice_index_in_range ips n Hrange) as (ip & Hip & _).
  assert (Hlook : ips !! Z.to_nat n = Some ip).
  { revert Hip. unfold slice_index.
    destruct ((n <? 0) || (len ips <=? n)); [done|].
    destruct (ips !! Z.to_nat n); [|done]. by intros [= ->]. }
  exists ip. split; [done|]. intros target.
  unfold dialContext. rewrite Hsplit. unfold GetConfig. step.
  rewrite dial_qTypes_code, Hres.
  destruct (Z.leb_spec (len ips) 0); [lia|].
  unfold extern. cbn [world trace]. rewrite Hrand. rewrite Hip.
  subst target. cbn [world trace].
  destruct (Dialer_DialContext network _ w2) as [res w3].
  simpl. by rewrite <- app_assoc.
Qed.

(** X12: without bootstrap DNS, [UpstreamIPs] for a hostname that is
    not a literal is one lookup by the system resolver, under a deadline
    only when the configured timeout is not zero, and no query to any
    chain.  An error of the lookup is returned without a set; a lookup
    without error is wrapped as it is, an empty list too. *)
Theorem UpstreamIPs_unconfigured (b : Bootstrap) (r : UpstreamResolver)
    (st : State) (ips : list IP) (err : option error) (w' : World) :
  resolver b = None ->
  net_ParseIP (Host (upstream r)) = None ->
  let cfg := config_GetConfig (world st) in
  let deadline :=
    if UpstreamTimeout cfg =? 0 then None else Some (UpstreamTimeout cfg) in
  let network := IPVersion_Net (ConnectIPVersion cfg) in
  systemResolver_LookupIP deadline network (Host (upstream r)) (world st)
  = ((ips, err), w') ->
  UpstreamIPs b r st
  = (Returns (match err with
              | Some e => (None, Some e)
              | None => (Some {| values := ips; index := 0 |}, None)
              end),
     {| world := w';
        trace := trace st ++ [EvLookupIP deadline network (Host (upstream r))] |}).
Proof.
  intros Hnil Hlit cfg deadline network Hlookup.
  unfold UpstreamIPs, resolveUpstream. rewrite Hlit, Hnil. run.
  fold cfg. replace (if negb (UpstreamTimeout cfg =? 0)
                     then Some (UpstreamTimeout cfg) else None)
    with deadline by (unfold deadline; by destruct (UpstreamTimeout cfg =? 0)).
  fold network. rewrite Hlookup. by destruct err.
Qed.

End MoreBootstrapProperties.

(** ** Further properties of ConditionalUpstreamResolver *)

Lemma append_length (s1 s2 : string) :
  String.length (s1 +:+ s2) = (String.length s1 + String.length s2)%nat.
Proof. induction s1 as [|a s1 IH]; simpl; [done|]. by rewrite IH. Qed.

Lemma tails_after_dots_aligned (s c : string) :
  c ∈ tails_after_dots s -> c <> "" /\ exists pre, s = pre +:+ "." +:+ c.
Proof.
  induction s as [|a s IH]; simpl.
  - by intros ?%elem_of_nil.
  - intros [Hhere|Hlater]%elem_of_app.
    + destruct (Ascii.eqb a dot) eqn:Ha; [|by apply elem_of_nil in Hhere].
      apply Ascii.eqb_eq in Ha as ->.
      destruct s as [|a' s']; [by apply elem_of_nil in Hhere|].
      apply list_elem_of_singleton in Hhere as ->.
      split; [done|]. by exists "".
    + destruct (IH Hlater) as (Hne & pre & ->).
      split; [done|]. by exists (String a pre).
Qed.

Lemma tails_after_dots_complete (pre c : string) :
  c <> "" -> c ∈ tails_after_dots (pre +:+ "." +:+ c).
Proof.
  intros Hne. induction pre as [|a pre IH]; simpl.
  - apply elem_of_app. left. destruct c; [done|].
    apply list_elem_of_singleton. done.
  - apply elem_of_app. by right.
Qed.

Lemma tails_after_dots_shorter (s c : string) :
  c ∈ tails_after_dots s -> (String.length c < String.length s)%nat.
Proof.
  induction s as [|a s IH]; simpl.
  - by intros ?%elem_of_nil.
  - intros [Hhere|Hlater]%elem_of_app.
    + destruct (Ascii.eqb a dot); [|by apply elem_of_nil in Hhere].
      destruct s as [|a' s']; [by apply elem_of_nil in Hhere|].
      apply list_elem_of_singleton in Hhere as ->. lia.
    + specialize (IH Hlater). lia.
Qed.

Lemma first_hit_tails_longest (m : gmap string Resolver) (s k : string)
    (reso : Resolver) :
  k ∈ tails_after_dots s -> m !! k = Some reso ->
  exists k' reso',
    first_hit m (tails_after_dots s) = Some (k', reso') /\
    (String.length k <= String.length k')%nat /\
    k' ∈ tails_after_dots s.
Proof.
  intros Hin Hk. induction s as [|a s IH]; simpl in *.
  - by apply elem_of_nil in Hin.
  - assert (Hrest : k ∈ tails_after_dots s ->
              exists k' reso',
                first_hit m (tails_after_dots s) = Some (k', reso') /\
                (String.length k <= String.length k')%nat /\
                k' ∈ [] ++ tails_after_dots s).
    { intros Hlater. destruct (IH Hlater) as (k' & reso' & ? & ? & ?).
      by exists k', reso'. }
    destruct (Ascii.eqb a dot); [|by apply Hrest].
    destruct s as [|a' s']; [by apply Hrest|].
    cbn [app first_hit].
    destruct (m !! String a' s') as [r0|] eqn:Hfull.
    + exists (String a' s'), r0. split; [done|]. split.
      * apply elem_of_cons in Hin as [->|Hlater]; [done|].
        apply tails_after_dots_shorter in Hlater. lia.
      * apply elem_of_cons. by left.
    + apply elem_of_cons in Hin as [->|Hlater]; [congruence|].
      destruct (IH Hlater) as (k' & reso' & ? & ? & ?).
      exists k', reso'. split; [done|]. split; [done|].
      apply elem_of_cons. by right.
Qed.

Section MoreConditionalProperties.
Context {E : Externals}.

(** X9: when a key of the mapping is the domain itself or what follows
    one of its dots, the loop of [processRequest] answers through a
    sub-pipeline, and the key it takes is itself such a tail of the
    domain and at least as long as any other such key: the longest
    suffix made of whole labels wins, whatever else the mapping holds. *)
Theorem processRequest_longest_suffix (r : ConditionalUpstreamResolver)
    (domainFromQuestion domain : string) (request : Request) (st : State)
    (k : string) (reso : Resolver) :
  mapping r !! k = Some reso ->
  k <> "" ->
  (k = domain \/ exists pre, domain = pre +:+ "." +:+ k) ->
  exists k' reso',
    mapping r !! k' = Some reso' /\
    (k' = domain \/ exists pre, domain = pre +:+ "." +:+ k') /\
    (String.length k <= String.length k')%nat /\
    processRequest_loop r domainFromQuestion domain request st
    = answer_through reso' domainFromQuestion k' request st.
Proof.
  intros Hk Hne Haligned. rewrite processRequest_loop_spec.
  assert (Hdomain : domain <> "").
  { destruct Haligned as [<-|[pre ->]]; [done|]. by destruct pre. }
  unfold label_suffixes. destruct domain as [|a d] eqn:Hd; [done|].
  rewrite <- Hd in *. cbn [first_hit].
  destruct (mapping r !! domain) as [r0|] eqn:Hfull.
  - exists domain, r0. split; [done|]. split; [by left|]. split; [|done].
    destruct Haligned as [->|[pre ->]]; [done|].
    rewrite !append_length. simpl. lia.
  - assert (Hin : k ∈ tails_after_dots domain).
    { destruct Haligned as [->|[pre ->]]; [congruence|].
      by apply tails_after_dots_complete. }
    destruct (first_hit_tails_longest _ _ _ _ Hin Hk) as (k' & reso' & Hhit & Hlen & Hin').
    exists k', reso'. rewrite Hhit.
    split; [by eapply first_hit_key|]. split; [|done].
    right. by apply tails_after_dots_aligned in Hin' as [_ ?].
Qed.

(** X10: with an empty mapping [Resolve] hands every request to the next
    link, a request without a question too; with a mapping that is not
    empty a request without a question makes it panic on the first
    index into the question section, before anything is asked. *)
Theorem Resolve_without_question (r : ConditionalUpstreamResolver)
    (req : Request) (st : State) :
  (mapping r = ∅ -> Resolve r req st = call_Resolve (next r) req st) /\
  (mapping r <> ∅ -> MsgQuestion (Req req) = [] ->
   Resolve r req st = (Panics IndexOutOfRange, st)).
Proof.
  split.
  - intros Hempty. unfold Resolve. by rewrite Hempty, map_size_empty.
  - intros Hfull Hq. unfold Resolve.
    destruct (Z.ltb_spec 0 (Z.of_nat (size (mapping r)))) as [_|Hsize].
    + unfold processRequest, Question0. rewrite Hq. by step.
    + exfalso. apply Hfull. apply map_size_empty_inv. lia.
Qed.

(** X13: when [internalResolve] returns without error it returns a
    response: the one of the sub-pipeline, asked once with the rewritten
    request, now tagged as conditional.  Its response code and its
    answer section are those the sub-pipeline gave, and so is the whole
    message when it has no question. *)
Theorem internalResolve_success (reso : Resolver) (doFQ do : string)
    (req req' : Request) (rsp' : option Response) (st st' : State) :
  internalResolve reso doFQ do req st = (Returns (req', (rsp', None)), st') ->
  exists rsp res res',
    let sent := {| Req := rename_Question0 (dns_Fqdn doFQ) (Req req) |} in
    MsgQuestion (Req req) <> [] /\
    Resolver_Resolve reso sent (world st)
    = (Returns (req', (Some rsp, None)), world st') /\
    trace st' = trace st ++ [EvResolve reso sent] /\
    Res rsp = Some res /\
    rsp' = Some {| Res := Some res';
                   Reason := "CONDITIONAL";
                   RType := ResponseTypeCONDITIONAL |} /\
    Rcode res' = Rcode res /\
    Answer res' = Answer res /\
    (MsgQuestion res = [] -> res' = res).
Proof.
  unfold internalResolve, set_Question0_Name.
  destruct (MsgQuestion (Req req)) as [|q qs] eqn:Hq; [by run|].
  run. unfold rename_Question0. rewrite Hq.
  destruct (Resolver_Resolve _ _ _) as [[[req1 [rsp [e|]]]|p] w] eqn:Hsub; simpl.
  { destruct rsp as [rsp|]; [destruct (Res rsp)|]; intros [=]. }
  2: { intros [=]. }
  destruct rsp as [rsp|]; [|intros [=]].
  destruct (Res rsp) as [res|] eqn:Hres; [|intros [=]].
  unfold len. destruct (MsgQuestion res) as [|x xs] eqn:Hx; simpl.
  - intros [= <- <- <-]. exists rsp, res, res. by repeat split.
  - unfold Question0. destruct (MsgQuestion (Req req1)) as [|q1 qs1]; simpl;
      [intros [=]|].
    intros [= <- <- <-]. eexists rsp, res, _.
    repeat split; try done. intros Hnil. by rewrite Hx in Hnil.
Qed.

End MoreConditionalProperties.

(** ** The properties at work on the stand-ins *)

Import Standin.

Lemma resolveUpstream_short_circuit_witness :
  resolver flaky_bootstrap = Some 1%positive /\
  bootstraped flaky_bootstrap !! 100%positive = Some [v4] /\
  resolveUpstream flaky_bootstrap 100%positive "dns.example" start
  = (Returns ([v4], None), start).
Proof.
  assert (H1 : resolver flaky_bootstrap = Some 1%positive) by reflexivity.
  assert (H2 : bootstraped flaky_bootstrap !! 100%positive = Some [v4])
    by reflexivity.
  split; [exact H1|]. split; [exact H2|].
  exact (resolveUpstream_short_circuit flaky_bootstrap 1%positive 100%positive
           [v4] "dns.example" start H1 H2).
Defined.

Lemma literal_IP_without_resolution_witness :
  net_ParseIP "192.0.2.7" = Some v4 /\
  UpstreamIPs flaky_bootstrap
    {| self := 7%positive;
       upstream := {| Net := NetProtocolTcpUdp; Host := "192.0.2.7";
                      Port := 53; Path := "" |} |} start
  = (Returns (Some {| values := [v4]; index := 0 |}, None), start) /\
  resolveType flaky_bootstrap "192.0.2.7" dns_TypeAAAA start
  = (Returns ([v4], None), start).
Proof.
  assert (H : net_ParseIP "192.0.2.7" = Some v4) by reflexivity.
  split; [exact H|].
  destruct (literal_IP_without_resolution "192.0.2.7" v4 H) as [Hset Htype].
  split; [apply Hset; reflexivity|apply Htype].
Defined.

Lemma resolveType_non_literal_witness :
  net_ParseIP "dns.example" = None /\
  resolveType flaky_bootstrap "dns.example" dns_TypeAAAA start
  = (Returns ([v6], None),
     {| world := tt;
        trace := [EvResolve 1%positive
                    {| Req := NewMsgWithQuestion "dns.example" dns_TypeAAAA |}] |}).
Proof.
  assert (H : net_ParseIP "dns.example" = None) by reflexivity.
  split; [exact H|].
  pose proof (resolveType_non_literal flaky_bootstrap 1%positive "dns.example"
                dns_TypeAAAA start _ _ _ _ H eq_refl eq_refl) as (_ & _ & Hok).
  exact (Hok _ _ eq_refl eq_refl eq_refl eq_refl).
Defined.

Lemma resolve_aggregates_witness :
  let st' := (resolveTypes flaky_bootstrap "dns.example" v4v6QTypes start).2 in
  resolveTypes flaky_bootstrap "dns.example" v4v6QTypes start
  = (Returns both_results, st') /\
  resolve flaky_bootstrap "dns.example" v4v6QTypes start
  = (Returns ([v6], Some (MultiError [ErrExternal "i/o timeout"])), st').
Proof.
  intros st'.
  assert (H : resolveTypes flaky_bootstrap "dns.example" v4v6QTypes start
              = (Returns both_results, st')) by reflexivity.
  split; [exact H|].
  destruct (resolve_aggregates flaky_bootstrap "dns.example" v4v6QTypes start
              both_results st' H) as [Herr _].
  apply Herr. discriminate.
Defined.

Lemma NewBootstrap_fails_atomically_witness :
  Exists (fun c => invalid_entry c = true) (BootstrapDNS mixed_config) /\
  exists st',
    NewBootstrap mixed_config start
    = (Returns (None,
                Some (ErrInvalidBootstrapDns
                        (MultiError
                           [ErrMustUseIP 1 (BUpstream by_hostname) NetProtocolTcpUdp;
                            ErrRequiresIPs 2 (BUpstream without_IPs) NetProtocolHttps;
                            ErrUpstreamNotConfigured 4 [v4]]))), st').
Proof.
  assert (H : Exists (fun c => invalid_entry c = true) (BootstrapDNS mixed_config))
    by (apply Exists_cons_hd; reflexivity).
  split; [exact H|].
  exact (proj1 (NewBootstrap_fails_atomically mixed_config start H)).
Defined.

Lemma unconfigured_transport_has_no_dial_hook_witness :
  exists b,
    NewBootstrap {| BootstrapDNS := []; UpstreamTimeout := 0;
                    ConnectIPVersion := IPVersionDual |} start
    = (Returns (Some b, None), start) /\
    resolver b = None /\
    NewHTTPTransport b = {| DialContext := None |}.
Proof.
  apply (proj1 (proj2 unconfigured_transport_has_no_dial_hook)). reflexivity.
Defined.

Lemma Current_empty_counterexample :
  Current (newIPSet []) = Panics IndexOutOfRange /\
  ~ exists ip, Current (newIPSet []) = Returns ip.
Proof.
  split; [reflexivity|]. intros [ip Hip]. discriminate Hip.
Qed.

Lemma resolve_partial_success_counterexample :
  let st1 := (resolveType flaky_bootstrap "dns.example" dns_TypeA start).2 in
  (resolveType flaky_bootstrap "dns.example" dns_TypeA start).1
  = Returns ([], Some (ErrExternal "i/o timeout")) /\
  (resolveType flaky_bootstrap "dns.example" dns_TypeAAAA st1).1
  = Returns ([v6], None) /\
  (resolve flaky_bootstrap "dns.example" v4v6QTypes start).1
  = Returns ([v6], Some (MultiError [ErrExternal "i/o timeout"])) /\
  ~ exists ips st',
      resolve flaky_bootstrap "dns.example" v4v6QTypes start
      = (Returns (ips, None), st').
Proof.
  split; [reflexivity|]. split; [reflexivity|]. split; [reflexivity|].
  intros (ips & st' & H). discriminate H.
Qed.

Lemma conditional_restore_counterexample :
  Resolve routing (asking "sub.example.com") start
  = (Returns (asking "sub.example.com.", (Some (answer_to "sub.example.com."), None)),
     {| world := tt;
        trace := [EvResolve 10%positive (asking "sub.example.com.")] |}) /\
  asking "sub.example.com." <> asking "sub.example.com" /\
  answer_to "sub.example.com." <> answer_to "sub.example.com".
Proof.
  split; [reflexivity|]. split; discriminate.
Qed.

Lemma conditional_match_order_witness :
  Resolve routing (asking "a.b.example.com.") start
  = internalResolve 10%positive "a.b.example.com" "example.com"
      (asking "a.b.example.com.") start /\
  Resolve routing (asking "foo.org") start
  = call_Resolve 20%positive (asking "foo.org") start /\
  Resolve routing (asking "printer") start
  = internalResolve 11%positive "printer" "printer" (asking "printer") start.
Proof.
  split; [|split].
  - destruct (conditional_match_order routing (asking "a.b.example.com.")
                _ [] start eq_refl) as [Hdotted _].
    destruct (Hdotted eq_refl) as [Hhit _].
    apply (Hhit ["a.b.example.com"; "b.example.com"] "example.com" ["com"]).
    + reflexivity.
    + intros c [->|[->|[]%elem_of_nil]%elem_of_cons]%elem_of_cons; reflexivity.
    + reflexivity.
  - destruct (conditional_match_order routing (asking "foo.org")
                _ [] start eq_refl) as [Hdotted _].
    destruct (Hdotted eq_refl) as [_ Hmiss].
    apply Hmiss.
    intros c [->|[->|[]%elem_of_nil]%elem_of_cons]%elem_of_cons; reflexivity.
  - destruct (conditional_match_order routing (asking "printer")
                _ [] start eq_refl) as (_ & Hplain & _).
    destruct (Hplain eq_refl) as [Hroot _].
    apply Hroot. reflexivity.
Defined.

Lemma conditional_rewrite_is_kept_witness :
  conditional_match (mapping routing) "sub.example.com"
  = Some ("example.com", 10%positive) /\
  Resolve routing (asking "sub.example.com") start
  = (Returns (asking "sub.example.com.", (Some (answer_to "sub.example.com."), None)),
     {| world := tt;
        trace := [EvResolve 10%positive (asking "sub.example.com.")] |}).
Proof.
  assert (H : conditional_match (mapping routing) "sub.example.com"
              = Some ("example.com", 10%positive)) by reflexivity.
  split; [exact H|].
  destruct (conditional_rewrite_is_kept routing (asking "sub.example.com")
              _ [] "example.com" 10%positive start _ _ _ _ eq_refl H eq_refl)
    as (_ & _ & Hok).
  exact (Hok _ _ _ _ eq_refl eq_refl eq_refl eq_refl).
Defined.

(** ** The further properties at work on the stand-ins *)

Lemma Next_round_robin_witness :
  Scripted.three <> [] /\ len Scripted.three <= 2 ^ 32 /\
  Next_times 7 (newIPSet Scripted.three)
  = Returns {| values := Scripted.three; index := 1 |}.
Proof.
  assert (H1 : Scripted.three <> []) by discriminate.
  assert (H2 : len Scripted.three <= 2 ^ 32) by (vm_compute; discriminate).
  split; [exact H1|]. split; [exact H2|].
  destruct (Next_round_robin Scripted.three 7 H1 H2) as (ip & _ & Hrun & _).
  exact Hrun.
Defined.

Lemma resolve_literal_witness :
  net_ParseIP "192.0.2.7" = Some v4 /\
  resolve flaky_bootstrap "192.0.2.7" v4v6QTypes start
  = (Returns ([v4; v4], None), start).
Proof.
  assert (H : net_ParseIP "192.0.2.7" = Some v4) by reflexivity.
  split; [exact H|].
  exact (resolve_literal flaky_bootstrap "192.0.2.7" v4 v4v6QTypes start H).
Defined.

Lemma resolve_queries_every_type_witness :
  let out := resolve flaky_bootstrap "dns.example" v4v6QTypes start in
  net_ParseIP "dns.example" = None /\
  out.1 = Returns ([v6], Some (MultiError [ErrExternal "i/o timeout"])) /\
  trace out.2
  = [EvResolve 1%positive {| Req := NewMsgWithQuestion "dns.example" dns_TypeA |};
     EvResolve 1%positive {| Req := NewMsgWithQuestion "dns.example" dns_TypeAAAA |}].
Proof.
  intros out.
  assert (H : net_ParseIP "dns.example" = None) by reflexivity.
  split; [exact H|]. split; [reflexivity|].
  exact (resolve_queries_every_type flaky_bootstrap 1%positive "dns.example"
           v4v6QTypes start out.2 _ H eq_refl eq_refl).
Defined.

Lemma UpstreamIPs_all_or_nothing_witness :
  let st' := (resolveTypes flaky_bootstrap "dns.example" v4v6QTypes start).2 in
  resolveTypes flaky_bootstrap "dns.example" v4v6QTypes start
  = (Returns both_results, st') /\
  UpstreamIPs flaky_bootstrap Scripted.over_https start
  = (Returns (None, Some (MultiError [ErrExternal "i/o timeout"])), st').
Proof.
  intros st'.
  assert (H : resolveTypes flaky_bootstrap "dns.example" v4v6QTypes start
              = (Returns both_results, st')) by reflexivity.
  split; [exact H|].
  destruct (UpstreamIPs_all_or_nothing flaky_bootstrap 1%positive
              Scripted.over_https start st' both_results
              eq_refl eq_refl eq_refl H) as [Hfail _].
  apply Hfail. discriminate.
Defined.

Lemma NewBootstrap_configured_witness :
  Forall (fun c => invalid_entry (E := Scripted.externals) c = false)
    (BootstrapDNS Scripted.valid_config) /\
  NewBootstrap Scripted.valid_config Scripted.start
  = (Returns (Some {| resolver := Some 103%positive;
                      bootstraped := <[101%positive := [v6; v4]]>
                                       {[100%positive := [v4]]} |}, None),
     Scripted.after 104%positive
       [EvNewUpstreamResolver (BUpstream Scripted.raw_entry);
        EvNewUpstreamResolver (BUpstream Scripted.https_entry);
        EvNewParallelBest
          (ResolverGroups (<[101%positive := [v6; v4]]> {[100%positive := [v4]]}));
        EvChain 102%positive]) /\
  exists st',
    (exists e,
       NewBootstrap Scripted.valid_config Scripted.start
       = (Returns (None, Some (ErrCreateParallelBest e)), st')) \/
    (exists b chain,
       NewBootstrap Scripted.valid_config Scripted.start
       = (Returns (Some b, None), st') /\
       resolver b = Some chain /\
       bootstraped b <> ∅ /\
       forall k ips, bootstraped b !! k = Some ips ->
         ips <> [] /\
         exists c, c ∈ BootstrapDNS Scripted.valid_config /\
                   ips = declared_ips (E := Scripted.externals) c).
Proof.
  assert (H : Forall (fun c => invalid_entry (E := Scripted.externals) c = false)
                (BootstrapDNS Scripted.valid_config))
    by (repeat constructor).
  split; [exact H|]. split; [reflexivity|].
  apply (NewBootstrap_configured Scripted.valid_config Scripted.start H).
  discriminate.
Defined.

Lemma dialContext_gives_up_witness :
  dialContext Scripted.flaky "tcp" "dns.example" Scripted.start
  = (Returns (None, Some (ErrExternal "missing port in address")), Scripted.start) /\
  (dialContext Scripted.flaky "tcp" "dns.example:853" Scripted.start).1
  = Returns (None, Some (MultiError [ErrExternal "i/o timeout"])) /\
  trace (dialContext Scripted.flaky "tcp" "dns.example:853" Scripted.start).2
  = chain_queries 1%positive "dns.example" v4v6QTypes.
Proof.
  destruct (dialContext_gives_up Scripted.flaky "tcp" "dns.example" Scripted.start)
    as [Hsplit _].
  destruct (dialContext_gives_up Scripted.flaky "tcp" "dns.example:853" Scripted.start)
    as [_ Hresolve].
  split; [exact (Hsplit _ eq_refl)|].
  rewrite (Hresolve "dns.example" "853" [Standin.v6] _ _ eq_refl eq_refl).
  split; reflexivity.
Defined.

Lemma dialContext_dials_resolved_witness :
  net_SplitHostPort (Externals := Scripted.externals) "dns.example:853"
  = inl ("dns.example", "853") /\
  (resolve Scripted.sound "dns.example" [dns_TypeA] Scripted.start).1
  = Returns ([v4], None) /\
  dialContext Scripted.sound "tcp4" "dns.example:853" Scripted.start
  = (Returns (Some 1, None),
     Scripted.after 100%positive
       [EvResolve 4%positive {| Req := NewMsgWithQuestion "dns.example" dns_TypeA |};
        EvRandIntn 1;
        EvDial "tcp4" "192.0.2.7:853"]).
Proof.
  assert (H : net_SplitHostPort (Externals := Scripted.externals) "dns.example:853"
              = inl ("dns.example", "853")) by reflexivity.
  split; [exact H|]. split; [reflexivity|].
  destruct (dialContext_dials_resolved Scripted.sound "tcp4" "dns.example:853"
              "dns.example" "853" Scripted.start _ [Standin.v4] 0 100%positive
              H eq_refl eq_refl ltac:(intros _; unfold len; simpl; lia))
    as (ip & Hip & Hdial).
  injection Hip as <-. exact Hdial.
Defined.

Lemma processRequest_longest_suffix_witness :
  mapping Scripted.nested !! "com" = Some 12%positive /\
  "a.example.com" = "a.example" +:+ "." +:+ "com" /\
  processRequest_loop Scripted.nested "a.example.com" "a.example.com"
    (asking "a.example.com.") start
  = answer_through 10%positive "a.example.com" "example.com"
      (asking "a.example.com.") start /\
  exists k' reso',
    mapping Scripted.nested !! k' = Some reso' /\
    (k' = "a.example.com" \/ exists pre, "a.example.com" = pre +:+ "." +:+ k') /\
    (String.length "com" <= String.length k')%nat /\
    processRequest_loop Scripted.nested "a.example.com" "a.example.com"
      (asking "a.example.com.") start
    = answer_through reso' "a.example.com" k' (asking "a.example.com.") start.
Proof.
  assert (H : mapping Scripted.nested !! "com" = Some 12%positive) by reflexivity.
  split; [exact H|]. split; [reflexivity|]. split; [reflexivity|].
  exact (processRequest_longest_suffix Scripted.nested "a.example.com"
           "a.example.com" (asking "a.example.com.") start "com" 12%positive
           H ltac:(discriminate) (or_intror (ex_intro _ "a.example" eq_refl))).
Defined.

Lemma Resolve_without_question_witness :
  Resolve {| mapping := ∅; next := 20%positive |} {| Req := mkMsg 0 [] [] |} start
  = call_Resolve 20%positive {| Req := mkMsg 0 [] [] |} start /\
  Resolve routing {| Req := mkMsg 0 [] [] |} start = (Panics IndexOutOfRange, start).
Proof.
  split.
  - apply (Resolve_without_question {| mapping := ∅; next := 20%positive |}).
    reflexivity.
  - apply (Resolve_without_question routing); [|reflexivity].
    intros Hempty. apply (f_equal (fun m => m !! ".")) in Hempty.
    discriminate Hempty.
Defined.

Lemma Next_interleaved_index_valid_witness :
  let vals := [[192; 0; 2; 1]; [192; 0; 2; 2]] : list IP in
  pool_steps vals (0, [AtLoadOld; AtLoadOld]) (1, [NextDone; NextDone]) /\
  Current {| values := vals; index := 1 |} = Returns [192; 0; 2; 2].
Proof.
  intros vals.
  assert (Hrun : pool_steps vals (0, [AtLoadOld; AtLoadOld]) (1, [NextDone; NextDone])).
  { eapply pool_more.
    { exact (pool_thread vals 0 0 [] AtLoadOld (AtLoadNew 0) [AtLoadOld]
               (step_load_old vals 0)). }
    eapply pool_more.
    { exact (pool_thread vals 0 0 [AtLoadNew 0] AtLoadOld (AtLoadNew 0) []
               (step_load_old vals 0)). }
    eapply pool_more.
    { exact (pool_thread vals 0 0 [] (AtLoadNew 0) (AtCAS 0 1) [AtLoadNew 0]
               (step_load_new vals 0 0 ltac:(discriminate))). }
    eapply pool_more.
    { exact (pool_thread vals 0 0 [AtCAS 0 1] (AtLoadNew 0) (AtCAS 0 1) []
               (step_load_new vals 0 0 ltac:(discriminate))). }
    eapply pool_more.
    { exact (pool_thread vals 0 1 [] (AtCAS 0 1) NextDone [AtCAS 0 1]
               (step_cas vals 0 0 1)). }
    eapply pool_more.
    { exact (pool_thread vals 1 1 [NextDone] (AtCAS 0 1) NextDone []
               (step_cas vals 1 0 1)). }
    apply pool_refl. }
  split; [exact Hrun|].
  destruct (Next_interleaved_index_valid vals 0 _ 1 _ Hrun ltac:(unfold len; simpl; lia)
              ltac:(repeat constructor)) as (_ & ip & Hip & _).
  rewrite Hip. revert Hip. vm_compute. congruence.
Defined.

Lemma UpstreamIPs_Current_returns_witness :
  let b := {| resolver := Some 103%positive;
              bootstraped := <[101%positive := [v6; v4]]> {[100%positive := [v4]]} |} in
  let r := {| self := 101%positive; upstream := upstream Scripted.over_https |} in
  (NewBootstrap Scripted.valid_config Scripted.start).1 = Returns (Some b, None) /\
  UpstreamIPs b r Scripted.start
  = (Returns (Some {| values := [v6; v4]; index := 0 |}, None), Scripted.start) /\
  exists ip, Current {| values := [v6; v4]; index := 0 |} = Returns ip.
Proof.
  intros b r. split; [reflexivity|]. split; [reflexivity|].
  exact (UpstreamIPs_Current_returns Scripted.valid_config Scripted.start _ b
           103%positive r Scripted.start Scripted.start _ eq_refl eq_refl eq_refl).
Defined.

Lemma UpstreamIPs_unconfigured_witness :
  let b := {| resolver := None; bootstraped := ∅ |} in
  net_ParseIP "dns.example" = None /\
  UpstreamIPs b Scripted.over_https start
  = (Returns (None, Some (ErrExternal "no such host")),
     {| world := tt; trace := [EvLookupIP None "ip" "dns.example"] |}).
Proof.
  intros b.
  assert (H : net_ParseIP "dns.example" = None) by reflexivity.
  split; [exact H|].
  exact (UpstreamIPs_unconfigured b Scripted.over_https start _ _ _
           eq_refl H eq_refl).
Defined.

Lemma internalResolve_success_witness :
  let st' := {| world := tt;
                trace := [EvResolve 10%positive (asking "sub.example.com.")] |} in
  internalResolve 10%positive "sub.example.com" "example.com"
    (asking "sub.example.com") start
  = (Returns (asking "sub.example.com.", (Some (answer_to "sub.example.com."), None)),
     st') /\
  exists rsp res res',
    Resolver_Resolve 10%positive (asking "sub.example.com.") (world start)
    = (Returns (asking "sub.example.com.", (Some rsp, None)), world st') /\
    Res rsp = Some res /\
    Some (answer_to "sub.example.com.")
    = Some {| Res := Some res'; Reason := "CONDITIONAL";
              RType := ResponseTypeCONDITIONAL |} /\
    Rcode res' = Rcode res /\ Answer res' = Answer res.
Proof.
  intros st'.
  assert (H : internalResolve 10%positive "sub.example.com" "example.com"
                (asking "sub.example.com") start
              = (Returns (asking "sub.example.com.",
                          (Some (answer_to "sub.example.com."), None)), st'))
    by reflexivity.
  split; [exact H|].
  destruct (internalResolve_success _ _ _ _ _ _ _ _ H)
    as (rsp & res & res' & _ & Hsub & _ & Hres & Hrsp & Hcode & Hanswer & _).
  exists rsp, res, res'. repeat split; assumption.
Defined.
